(** * Priority-queue translation service: a model of [app/main.py]

    The service keeps translation jobs in an [asyncio.PriorityQueue], a
    single background worker drains it, and each request handler waits
    on a per-job future.

    The development has three layers:
    - [Heapq]: the array heap of Python's [heapq] module (the reference
      implementation [Lib/heapq.py]), which [asyncio.PriorityQueue] uses
      for [_put] ([heappush]) and [_get] ([heappop]);
    - the queue items of [main.py] and Python's tuple comparison on them;
    - the request handler [translate] and [worker_loop], as state-passing
      functions over the module globals, with a log of their effects.

    On top of these come the application ([startup_event],
    [shutdown_event], [health]) with its runs, and, at the end, the
    download script [models/download_model.py].

    Conventions:
    - integers are [Z]; readings of [time.time()] are [Z] clock ticks and
      are inputs of the functions that read the clock;
    - texts are [string]s compared lexicographically, as Python's [str];
    - a metric label is [str(priority)];
    - the handler is cut at its only suspension point, [await future]:
      [translate_submit] runs up to it, [translate_resume] from it;
    - the Job Processor (tokenizer and model) is a parameter
      [processor : string → result string].  *)

From Equations Require Import Equations.
From Stdlib Require Import ZArith String Ascii Sorted.
From stdpp Require Import gmap strings list pretty sorting.

(** ** Exceptions and fallible computations *)

(** The exception classes that occur in [main.py] and in the library
    calls it makes.  All of them derive from [Exception]; task
    cancellation ([asyncio.CancelledError], a [BaseException]) is not an
    [Exn]: it is modelled by the control outcomes of the worker and of the
    suspended handler. *)
Inductive Exn : Type :=
  | RuntimeError (msg : string)
  | TypeError (msg : string)
  | IndexError (msg : string)
  | AttributeError (msg : string)
  | InvalidStateError (msg : string)
  | HTTPException (status_code : Z) (detail : string)
  | ValueError (msg : string)
  | ProcessorError (msg : string).

(** [str(e)]: the message for the built-in classes, and
    ["{status_code}: {detail}"] for [HTTPException]. *)
Definition str_exn (e : Exn) : string :=
  match e with
  | RuntimeError m | TypeError m | IndexError m | AttributeError m
  | InvalidStateError m | ValueError m | ProcessorError m => m
  | HTTPException c d => pretty c +:+ ": " +:+ d
  end.

Inductive result (A : Type) : Type :=
  | Ok (a : A)
  | Raise (e : Exn).
Arguments Ok {A} a.
Arguments Raise {A} e.

(** Python code mutates its objects in place and may raise half-way; a
    computation over a store [S] therefore returns its outcome together
    with the store as it stands when the computation ends or raises. *)
Definition M (S A : Type) : Type := S → result A * S.

Definition raise {S A} (e : Exn) : M S A := λ s, (Raise e, s).
Definition lift {S A} (r : result A) : M S A := λ s, (r, s).
Definition get {S} : M S S := λ s, (Ok s, s).
Definition modify {S} (f : S → S) : M S unit := λ s, (Ok tt, f s).

Global Instance M_ret {S} : MRet (M S) := λ A a s, (Ok a, s).
Global Instance M_bind {S} : MBind (M S) := λ A B k m s,
  match m s with
  | (Ok a, s') => k a s'
  | (Raise e, s') => (Raise e, s')
  end.

Lemma bind_Ok {S A B} (m : M S A) (k : A → M S B) s a s' :
  m s = (Ok a, s') → (m ≫= k) s = k a s'.
Proof. unfold mbind, M_bind. by intros ->. Qed.

Lemma bind_Raise {S A B} (m : M S A) (k : A → M S B) s e s' :
  m s = (Raise e, s') → (m ≫= k) s = (Raise e, s').
Proof. unfold mbind, M_bind. by intros ->. Qed.

(** ** The [heapq] array heap *)

Module Heapq.
Section Heapq.
Context {A : Type}.

(** [a < b] on heap entries; Python may raise while comparing. *)
Variable lt : A → A → result bool.

(** [heap[i]], raising [IndexError] out of range. *)
Definition getitem (i : nat) : M (list A) A :=
  λ heap, match heap !! i with
          | Some x => (Ok x, heap)
          | None => (Raise (IndexError "list index out of range"), heap)
          end.

(** [heap[i] = x], raising [IndexError] out of range. *)
Definition setitem (i : nat) (x : A) : M (list A) unit :=
  λ heap, if decide (i < length heap)
          then (Ok tt, <[i := x]> heap)
          else (Raise (IndexError "list assignment index out of range"), heap).

(** [(pos - 1) >> 1] *)
Definition parent_of (pos : nat) : nat := Nat.shiftr (pos - 1) 1.

Lemma parent_of_div pos : parent_of pos = (pos - 1) / 2.
Proof. unfold parent_of. by rewrite Nat.shiftr_div_pow2. Qed.

Lemma parent_of_lt pos : 0 < pos → parent_of pos < pos.
Proof.
  intros Hpos. rewrite parent_of_div.
  apply Nat.Div0.div_lt_upper_bound. lia.
Qed.

(** The loop of [_siftdown(heap, startpos, pos)]:
<<
    while pos > startpos:
        parentpos = (pos - 1) >> 1
        parent = heap[parentpos]
        if newitem < parent:
            heap[pos] = parent
            pos = parentpos
            continue
        break
    heap[pos] = newitem
>> *)
Equations? siftdown_loop (newitem : A) (startpos pos : nat)
  : M (list A) unit by wf pos Nat.lt :=
  siftdown_loop newitem startpos pos
    with Equations.Prop.Logic.inspect (startpos <? pos)%nat => {
    | exist _ true Hgt =>
        parent ← getitem (parent_of pos);
        b ← lift (lt newitem parent);
        if b : bool
        then setitem pos parent;;
             siftdown_loop newitem startpos (parent_of pos)
        else setitem pos newitem
    | exist _ false Hle => setitem pos newitem }.
Proof.
  apply Nat.ltb_lt in Hgt. apply parent_of_lt. lia.
Qed.

Definition _siftdown (startpos pos : nat) : M (list A) unit :=
  newitem ← getitem pos;
  siftdown_loop newitem startpos pos.

(** The loop of [_siftup(heap, pos)]; it returns the leaf position
    reached.  [childpos] is [2*pos + 1] throughout.
<<
    while childpos < endpos:
        rightpos = childpos + 1
        if rightpos < endpos and not heap[childpos] < heap[rightpos]:
            childpos = rightpos
        heap[pos] = heap[childpos]
        pos = childpos
        childpos = 2*pos + 1
>> *)
Equations? siftup_loop (endpos pos : nat)
  : M (list A) nat by wf (endpos - pos) Nat.lt :=
  siftup_loop endpos pos
    with Equations.Prop.Logic.inspect (2 * pos + 1 <? endpos)%nat => {
    | exist _ true Hlt =>
        if (2 * pos + 1 + 1 <? endpos)%nat then
          l ← getitem (2 * pos + 1);
          r ← getitem (2 * pos + 1 + 1);
          b ← lift (lt l r);
          if b : bool
          then setitem pos l;; siftup_loop endpos (2 * pos + 1)
          else setitem pos r;; siftup_loop endpos (2 * pos + 1 + 1)
        else
          l ← getitem (2 * pos + 1);
          setitem pos l;; siftup_loop endpos (2 * pos + 1)
    | exist _ false Hge => mret pos }.
Proof.
  all: apply Nat.ltb_lt in Hlt; lia.
Qed.

(** [_siftup(heap, pos)]: the loop above, then
<<
    heap[pos] = newitem
    _siftdown(heap, startpos, pos)
>> *)
Definition _siftup (pos : nat) : M (list A) unit :=
  heap ← get;
  let endpos := length heap in
  let startpos := pos in
  newitem ← getitem pos;
  pos ← siftup_loop endpos pos;
  setitem pos newitem;;
  _siftdown startpos pos.

(** [heap.append(item)] *)
Definition list_append (item : A) : M (list A) unit :=
  modify (λ heap, heap ++ [item]).

(** [heap.pop()] *)
Definition list_pop : M (list A) A :=
  λ heap, match last heap with
          | Some x => (Ok x, take (length heap - 1) heap)
          | None => (Raise (IndexError "pop from empty list"), heap)
          end.

(** [heappush(heap, item)]:
<<
    heap.append(item)
    _siftdown(heap, 0, len(heap)-1)
>> *)
Definition heappush (item : A) : M (list A) unit :=
  list_append item;;
  heap ← get;
  _siftdown 0 (length heap - 1).

(** [heappop(heap)]:
<<
    lastelt = heap.pop()
    if heap:
        returnitem = heap[0]
        heap[0] = lastelt
        _siftup(heap, 0)
        return returnitem
    return lastelt
>> *)
Definition heappop : M (list A) A :=
  lastelt ← list_pop;
  heap ← get;
  match heap with
  | _ :: _ =>
      returnitem ← getitem 0;
      setitem 0 lastelt;;
      _siftup 0;;
      mret returnitem
  | [] => mret lastelt
  end.

(** Drivers for the queue scenarios: push a list of items one by one;
    pop [n] times and collect what comes out. *)
Fixpoint push_all (items : list A) : M (list A) unit :=
  match items with
  | [] => mret tt
  | item :: items => heappush item;; push_all items
  end.

Fixpoint pop_n (n : nat) : M (list A) (list A) :=
  match n with
  | 0 => mret []
  | S n => x ← heappop; out ← pop_n n; mret (x :: out)
  end.

End Heapq.

(** Case analysis on the loop test recorded by a [with inspect] clause. *)
Ltac split_inspect :=
lazymatch goal with
| |- ?f (exist _ ?c _) = (if ?c then ?X else ?Y) =>
    let H := fresh in
    cut (∀ b (e : c = b), f (exist _ b e) = if b then X else Y);
    [ intros H; apply H | by intros [] ? ]
end.

Section Unfold.
Context {A : Type} (lt : A → A → result bool).

Lemma siftdown_loop_eq newitem startpos pos :
  siftdown_loop lt newitem startpos pos =
    if (startpos <? pos)%nat then
      parent ← getitem (parent_of pos);
      b ← lift (lt newitem parent);
      if b : bool
      then setitem pos parent;;
           siftdown_loop lt newitem startpos (parent_of pos)
      else setitem pos newitem
    else setitem pos newitem.
Proof.
  rewrite siftdown_loop_equation_1. unfold Equations.Prop.Logic.inspect.
  split_inspect.
Qed.

Lemma siftup_loop_eq endpos pos :
  siftup_loop lt endpos pos =
    if (2 * pos + 1 <? endpos)%nat then
      if (2 * pos + 1 + 1 <? endpos)%nat then
        l ← getitem (2 * pos + 1);
        r ← getitem (2 * pos + 1 + 1);
        b ← lift (lt l r);
        if b : bool
        then setitem pos l;; siftup_loop lt endpos (2 * pos + 1)
        else setitem pos r;; siftup_loop lt endpos (2 * pos + 1 + 1)
      else
        l ← getitem (2 * pos + 1);
        setitem pos l;; siftup_loop lt endpos (2 * pos + 1)
    else mret pos.
Proof.
  rewrite siftup_loop_equation_1. unfold Equations.Prop.Logic.inspect.
  split_inspect.
Qed.

Lemma getitem_Some (h : list A) i x : h !! i = Some x → getitem i h = (Ok x, h).
Proof. unfold getitem. by intros ->. Qed.

Lemma setitem_lt (h : list A) i x :
  i < length h → setitem i x h = (Ok tt, <[i := x]> h).
Proof. intros. unfold setitem. by rewrite decide_True. Qed.
End Unfold.

(** *** Index arithmetic of the implicit tree *)

Lemma parent_of_left p : parent_of (2 * p + 1) = p.
Proof.
rewrite parent_of_div. replace (2 * p + 1 - 1) with (p * 2) by lia.
by rewrite Nat.div_mul.
Qed.

Lemma parent_of_right p : parent_of (2 * p + 1 + 1) = p.
Proof.
rewrite parent_of_div. replace (2 * p + 1 + 1 - 1) with (1 + p * 2) by lia.
by rewrite Nat.div_add.
Qed.

Lemma children_of i p :
0 < i → parent_of i = p → i = 2 * p + 1 ∨ i = 2 * p + 1 + 1.
Proof.
intros Hi <-. rewrite parent_of_div.
pose proof (Nat.div_mod_eq (i - 1) 2) as Hd.
pose proof (Nat.mod_upper_bound (i - 1) 2). lia.
Qed.

(** Writing [x] over a copy of [y] and [y] over the hole is the same, as a
  multiset, as writing [x] into the hole. *)
Lemma insert_shift_perm {A} (h : list A) i j x y :
i < length h → h !! j = Some y →
<[j := x]> (<[i := y]> h) ≡ₚ <[i := x]> h.
Proof.
intros Hi Hj. destruct (decide (i = j)) as [->|Hne].
{ by rewrite list_insert_insert_eq. }
rewrite <-(list_insert_insert_eq h i y x).
apply Permutation_insert_swap.
- by apply list_lookup_insert_eq.
- by rewrite list_lookup_insert_ne.
Qed.

(** *** Correctness of the sift loops

  [ltb] is the order the comparison computes on the entries that can be
  compared without an exception; [P] delimits such a set of entries.  *)

Section Correct.
Context {A : Type} (lt : A → A → result bool).
Context (ltb : A → A → bool) (P : A → Prop).

Hypothesis lt_ok : ∀ a b, P a → P b → lt a b = Ok (ltb a b).
Hypothesis ltb_asym : ∀ a b, ltb a b = true → ltb b a = false.
Hypothesis ltb_trans' :
  ∀ a b c, ltb b a = false → ltb c b = false → ltb c a = false.

(** [a] is not after [b]. *)
Definition le (a b : A) : Prop := ltb b a = false.

Lemma le_refl a : le a a.
Proof.
  unfold le. destruct (ltb a a) eqn:E; [|done]. by rewrite (ltb_asym _ _ E) in E.
Qed.

Lemma le_trans a b c : le a b → le b c → le a c.
Proof. unfold le. eauto. Qed.

Lemma lt_le a b : ltb a b = true → le a b.
Proof. unfold le. eauto. Qed.

(** The entry at [i] is not before the entry at its parent. *)
Definition edge_ok (h : list A) (i : nat) : Prop :=
  ∀ x y, h !! parent_of i = Some y → h !! i = Some x → le y x.

Definition is_heap (h : list A) : Prop := ∀ i, 0 < i → edge_ok h i.

(** Invariant of [_siftdown]: [h] is a heap except for the edge into the
    hole at [pos], [v] can sit above the children of [pos], and so can
    the parent of [pos]. *)
Definition hole_down (h : list A) (pos : nat) (v : A) : Prop :=
  (∀ i, 0 < i → i ≠ pos → edge_ok h i) ∧
  (∀ i x, 0 < i → parent_of i = pos → h !! i = Some x → le v x) ∧
  (∀ i x y, 0 < pos → 0 < i → parent_of i = pos →
     h !! parent_of pos = Some y → h !! i = Some x → le y x).

(** Steps through the next statement of a computation that succeeds. *)
Local Ltac mstep tac := erewrite bind_Ok by tac.
Local Ltac mstep_lt := mstep ltac:(unfold lift; by rewrite lt_ok).

Lemma siftdown_loop_correct pos : ∀ h v,
  pos < length h → Forall P h → P v → hole_down h pos v →
  ∃ h', siftdown_loop lt v 0 pos h = (Ok tt, h') ∧
    is_heap h' ∧ h' ≡ₚ <[pos := v]> h.
Proof.
  induction pos as [pos IH] using lt_wf_ind.
  intros h v Hlen HP Hv (Hedges & Hkids & Hgrand).
  rewrite siftdown_loop_eq. destruct (0 <? pos)%nat eqn:Hpos.
  - apply Nat.ltb_lt in Hpos.
    pose proof (parent_of_lt pos Hpos) as Hpp.
    destruct (lookup_lt_is_Some_2 h (parent_of pos)) as [y Hy]; [lia|].
    assert (P y) as HPy by (eapply Forall_lookup_1; eauto).
    mstep ltac:(by apply getitem_Some). mstep_lt.
    destruct (ltb v y) eqn:Hvy.
    + mstep ltac:(by apply setitem_lt).
      destruct (IH (parent_of pos) Hpp (<[pos := y]> h) v) as (h' & Hrun & Hheap & Hperm).
      * by rewrite length_insert; lia.
      * by apply Forall_insert.
      * done.
      * split_and!.
        -- intros i Hi Hne x y' Hp Hx.
           apply list_lookup_insert_Some in Hx as [(<- & <- & _)|[Hne' Hx]].
           ++ rewrite list_lookup_insert_ne in Hp by lia.
              rewrite Hy in Hp. injection Hp as <-. apply le_refl.
           ++ apply list_lookup_insert_Some in Hp as [(Heq & <- & _)|[Hne'' Hp]].
              ** by eapply (Hgrand i).
              ** by eapply (Hedges i).
        -- intros i x Hi Hpar Hx.
           apply list_lookup_insert_Some in Hx as [(<- & <- & _)|[Hne' Hx]].
           ++ by apply lt_le.
           ++ apply le_trans with y; [by apply lt_le|].
              eapply (Hedges i); eauto. by rewrite Hpar.
        -- intros i x y' Hpp0 Hi Hpar Hp Hx.
           pose proof (parent_of_lt _ Hpp0).
           rewrite list_lookup_insert_ne in Hp by lia.
           assert (le y' y) as Hy'y by (eapply (Hedges (parent_of pos)); eauto; lia).
           apply list_lookup_insert_Some in Hx as [(<- & <- & _)|[Hne' Hx]]; [done|].
           apply le_trans with y; [done|].
           eapply (Hedges i); eauto. by rewrite Hpar.
      * exists h'. split_and!; [done..|].
        rewrite Hperm. by apply insert_shift_perm.
    + eexists. split_and!; [by apply setitem_lt| |done].
      intros i Hi x y' Hp Hx.
      apply list_lookup_insert_Some in Hx as [(<- & <- & _)|[Hne' Hx]].
      * rewrite list_lookup_insert_ne in Hp by lia.
        rewrite Hy in Hp. by injection Hp as <-.
      * apply list_lookup_insert_Some in Hp as [(Heq & <- & _)|[Hne'' Hp]].
        -- by eapply (Hkids i).
        -- by eapply (Hedges i).
  - apply Nat.ltb_ge in Hpos. assert (pos = 0) as -> by lia.
    eexists. split_and!; [by apply setitem_lt| |done].
    intros i Hi x y' Hp Hx.
    rewrite list_lookup_insert_ne in Hx by lia.
    apply list_lookup_insert_Some in Hp as [(Heq & <- & _)|[Hne'' Hp]].
    + by eapply (Hkids i).
    + eapply (Hedges i); eauto. lia.
Qed.

(** Invariant of the [_siftup] loop: [h] is a heap except for the edges
    that touch the hole at [pos], and the parent of [pos] can sit above
    the children of [pos]. *)
Definition hole_up (h : list A) (pos : nat) : Prop :=
  (∀ i, 0 < i → i ≠ pos → parent_of i ≠ pos → edge_ok h i) ∧
  (∀ i x y, 0 < pos → 0 < i → parent_of i = pos →
     h !! parent_of pos = Some y → h !! i = Some x → le y x).

Lemma hole_up_step h pos child c :
  0 < child → parent_of child = pos → h !! child = Some c →
  (∀ s x, 0 < s → parent_of s = pos → s ≠ child → h !! s = Some x → le c x) →
  hole_up h pos → hole_up (<[pos := c]> h) child.
Proof.
  intros Hchild Hpar Hc Hsib [Hedges Hgrand].
  pose proof (parent_of_lt _ Hchild) as Hlt. rewrite Hpar in Hlt.
  split.
  - intros i Hi Hne Hpne x y Hp Hx.
    apply list_lookup_insert_Some in Hx as [(<- & <- & _)|[Hne' Hx]].
    + pose proof (parent_of_lt _ Hi).
      rewrite list_lookup_insert_ne in Hp by lia.
      by eapply (Hgrand child).
    + apply list_lookup_insert_Some in Hp as [(Heq & <- & _)|[Hne'' Hp]].
      * by eapply (Hsib i).
      * by eapply (Hedges i).
  - intros i x y _ Hi Hpi Hp Hx.
    pose proof (parent_of_lt _ Hi).
    rewrite Hpar in Hp.
    rewrite list_lookup_insert_ne in Hx by lia.
    apply list_lookup_insert_Some in Hp as [(_ & <- & _)|[? _]]; [|done].
    eapply (Hedges i); eauto; [lia..|]. by rewrite Hpi.
Qed.

Lemma siftup_loop_correct n : ∀ h endpos pos,
  n = endpos - pos → endpos = length h → pos < endpos →
  Forall P h → hole_up h pos →
  ∃ h' pos', siftup_loop lt endpos pos h = (Ok pos', h') ∧
    length h' = endpos ∧ pos' < endpos ∧ endpos ≤ 2 * pos' + 1 ∧
    Forall P h' ∧
    (∀ i, 0 < i → i ≠ pos' → edge_ok h' i) ∧
    (∀ x, <[pos' := x]> h' ≡ₚ <[pos := x]> h).
Proof.
  induction n as [n IH] using lt_wf_ind.
  intros h endpos pos -> Hend Hpos HP Hup.
  assert (∀ child c,
    child < endpos → 0 < child → parent_of child = pos → h !! child = Some c →
    (∀ s x, 0 < s → parent_of s = pos → s ≠ child → h !! s = Some x → le c x) →
    ∃ h' pos', siftup_loop lt endpos child (<[pos := c]> h) = (Ok pos', h') ∧
      length h' = endpos ∧ pos' < endpos ∧ endpos ≤ 2 * pos' + 1 ∧
      Forall P h' ∧
      (∀ i, 0 < i → i ≠ pos' → edge_ok h' i) ∧
      (∀ x, <[pos' := x]> h' ≡ₚ <[pos := x]> h)) as Hstep.
  { intros child c Hclt Hchild Hpar Hc Hsib.
    pose proof (parent_of_lt _ Hchild) as Hlt. rewrite Hpar in Hlt.
    destruct (IH (endpos - child) ltac:(lia) (<[pos := c]> h) endpos child)
      as (h' & pos' & Hrun & ? & ? & ? & ? & ? & Hperm); try done.
    - by rewrite length_insert.
    - apply Forall_insert; [done|]. eapply Forall_lookup_1; eauto.
    - by apply hole_up_step.
    - exists h', pos'. split_and!; try done.
      intros x. rewrite Hperm. apply insert_shift_perm; [lia|done]. }
  rewrite siftup_loop_eq. destruct (2 * pos + 1 <? endpos)%nat eqn:Hleft.
  - apply Nat.ltb_lt in Hleft.
    destruct (lookup_lt_is_Some_2 h (2 * pos + 1)) as [l Hl]; [lia|].
    assert (P l) as HPl by (eapply Forall_lookup_1; eauto).
    destruct (2 * pos + 1 + 1 <? endpos)%nat eqn:Hright.
    + apply Nat.ltb_lt in Hright.
      destruct (lookup_lt_is_Some_2 h (2 * pos + 1 + 1)) as [r Hr]; [lia|].
      assert (P r) as HPr by (eapply Forall_lookup_1; eauto).
      do 2 mstep ltac:(by apply getitem_Some). mstep_lt.
      destruct (ltb l r) eqn:Hlr; mstep ltac:(apply setitem_lt; lia).
      * apply Hstep; [lia|lia|apply parent_of_left|done|].
        intros s x Hs Hps Hne Hx.
        destruct (children_of _ _ Hs Hps) as [->| ->]; [done|].
        rewrite Hr in Hx. injection Hx as <-. by apply lt_le.
      * apply Hstep; [lia|lia|apply parent_of_right|done|].
        intros s x Hs Hps Hne Hx.
        destruct (children_of _ _ Hs Hps) as [->| ->]; [|done].
        rewrite Hl in Hx. by injection Hx as <-.
    + apply Nat.ltb_ge in Hright.
      mstep ltac:(by apply getitem_Some). mstep ltac:(apply setitem_lt; lia).
      apply Hstep; [lia|lia|apply parent_of_left|done|].
      intros s x Hs Hps Hne Hx.
      destruct (children_of _ _ Hs Hps) as [->| ->]; [done|].
      apply lookup_lt_Some in Hx. lia.
  - apply Nat.ltb_ge in Hleft.
    exists h, pos. split_and!; try done.
    intros i Hi Hne x y Hp Hx.
    destruct (decide (parent_of i = pos)) as [Hpi|Hpi].
    + apply lookup_lt_Some in Hx.
      destruct (children_of _ _ Hi Hpi); lia.
    + by eapply (proj1 Hup i).
Qed.

(** *** [heappush] and [heappop] on a valid heap *)

Lemma is_heap_nil : is_heap [].
Proof. intros i _ x y _ Hx. by rewrite lookup_nil in Hx. Qed.

Lemma is_heap_app_l h k : is_heap (h ++ k) → is_heap h.
Proof.
  intros Hh i Hi x y Hp Hx.
  eapply (Hh i Hi); by apply lookup_app_l_Some.
Qed.

(** The root of a heap is not after any other entry. *)
Lemma heap_root_min h x : is_heap h → h !! 0 = Some x → Forall (le x) h.
Proof.
  intros Hh H0. apply Forall_lookup. intros i.
  induction i as [i IH] using lt_wf_ind. intros y Hy.
  destruct (decide (i = 0)) as [->|Hne].
  { rewrite H0 in Hy. injection Hy as <-. apply le_refl. }
  assert (0 < i) as Hi by lia.
  pose proof (parent_of_lt _ Hi) as Hlt.
  destruct (lookup_lt_is_Some_2 h (parent_of i)) as [z Hz].
  { apply lookup_lt_Some in Hy. lia. }
  apply le_trans with z; [by eapply IH|]. by eapply (Hh i).
Qed.

Theorem heappush_correct h x :
  is_heap h → Forall P h → P x →
  ∃ h', heappush lt x h = (Ok tt, h') ∧ is_heap h' ∧ h' ≡ₚ x :: h.
Proof.
  intros Hh HP Hx. unfold heappush, _siftdown, list_append.
  do 2 mstep ltac:(done).
  rewrite length_app, Nat.add_sub.
  assert ((h ++ [x]) !! length h = Some x) as Hlast.
  { rewrite lookup_app_r, Nat.sub_diag by lia. done. }
  mstep ltac:(by apply getitem_Some).
  destruct (siftdown_loop_correct (length h) (h ++ [x]) x)
    as (h' & Hrun & Hheap & Hperm); try done.
  - rewrite length_app. simpl. lia.
  - apply Forall_app. by split; [|apply Forall_singleton].
  - split_and!.
    + intros i Hi Hne a b Hp Ha.
      pose proof (parent_of_lt _ Hi).
      assert (i < length h) as Hlt.
      { apply lookup_lt_Some in Ha. rewrite length_app in Ha. simpl in Ha. lia. }
      rewrite lookup_app_l in Ha, Hp by lia. by eapply (Hh i).
    + intros i a Hi Hpar Ha.
      pose proof (parent_of_lt _ Hi).
      apply lookup_lt_Some in Ha. rewrite length_app in Ha. simpl in Ha. lia.
    + intros i a b _ Hi Hpar _ Ha.
      pose proof (parent_of_lt _ Hi).
      apply lookup_lt_Some in Ha. rewrite length_app in Ha. simpl in Ha. lia.
  - exists h'. split_and!; [done..|].
    rewrite Hperm, list_insert_id by done.
    by rewrite Permutation_app_comm.
Qed.

Lemma list_pop_snoc (h : list A) x : list_pop (h ++ [x]) = (Ok x, h).
Proof.
  unfold list_pop. rewrite last_snoc, length_app, Nat.add_sub.
  by rewrite take_app_length.
Qed.

Lemma siftup_correct t v :
  (∀ i, 0 < i → parent_of i ≠ 0 → edge_ok (v :: t) i) →
  Forall P (v :: t) →
  ∃ h', _siftup lt 0 (v :: t) = (Ok tt, h') ∧ is_heap h' ∧ h' ≡ₚ v :: t.
Proof.
  intros Hedges HP. unfold _siftup.
  do 2 mstep ltac:(done).
  assert (hole_up (v :: t) 0) as Hup.
  { split; [|intros; lia]. intros i Hi _ Hpi. by apply Hedges. }
  destruct (siftup_loop_correct _ (v :: t) (S (length t)) 0
              eq_refl eq_refl ltac:(lia) HP Hup)
    as (h1 & pos1 & Hrun & Hlen & Hpos & Hleaf & HP1 & Hedges1 & Hperm1).
  mstep ltac:(exact Hrun). mstep ltac:(apply setitem_lt; lia).
  unfold _siftdown.
  mstep ltac:(apply getitem_Some, list_lookup_insert_eq; lia).
  assert (∀ i, 0 < i → parent_of i = pos1 → length h1 ≤ i) as Hkids.
  { intros i Hi Hpi. destruct (children_of _ _ Hi Hpi); lia. }
  destruct (siftdown_loop_correct pos1 (<[pos1 := v]> h1) v)
    as (h2 & Hrun2 & Hheap2 & Hperm2); try done.
  - rewrite length_insert. lia.
  - apply Forall_insert; [done|]. by eapply Forall_inv.
  - by eapply Forall_inv.
  - split_and!.
    + intros i Hi Hne a b Hp Ha.
      rewrite list_lookup_insert_ne in Ha by done.
      apply list_lookup_insert_Some in Hp as [(Heq & _ & _)|[_ Hp]].
      * apply lookup_lt_Some in Ha. specialize (Hkids i Hi). lia.
      * by eapply (Hedges1 i).
    + intros i a Hi Hpi Ha. apply lookup_lt_Some in Ha.
      rewrite length_insert in Ha. specialize (Hkids i Hi Hpi). lia.
    + intros i a b _ Hi Hpi _ Ha. apply lookup_lt_Some in Ha.
      rewrite length_insert in Ha. specialize (Hkids i Hi Hpi). lia.
  - exists h2. split_and!; [done..|].
    by rewrite Hperm2, list_insert_insert_eq, Hperm1.
Qed.

Theorem heappop_correct h :
  is_heap h → Forall P h → h ≠ [] →
  ∃ x h', heappop lt h = (Ok x, h') ∧ h !! 0 = Some x ∧
    is_heap h' ∧ h ≡ₚ x :: h' ∧ Forall (le x) h'.
Proof.
  intros Hh HP Hne.
  destruct (exists_last Hne) as (h1 & lastelt & ->).
  unfold heappop.
  mstep ltac:(apply list_pop_snoc). mstep ltac:(done).
  destruct h1 as [|r t].
  { exists lastelt, []. split_and!; auto using is_heap_nil. }
  do 2 mstep ltac:(done).
  apply Forall_app in HP as [HP1 HPl].
  destruct (siftup_correct t lastelt) as (h' & Hrun & Hheap & Hperm).
  { intros i Hi Hpi a b Hp Ha.
    pose proof (parent_of_lt _ Hi).
    destruct i as [|i]; [lia|].
    destruct (parent_of (S i)) as [|j] eqn:Hj; [done|].
    simpl in Hp, Ha.
    eapply (Hh (S i) Hi); rewrite ?Hj; simpl; by apply lookup_app_l_Some. }
  { apply Forall_cons. split; [by eapply Forall_inv|by eapply Forall_inv_tail]. }
  mstep ltac:(exact Hrun).
  assert ((r :: t) ++ [lastelt] ≡ₚ r :: h') as Hp.
  { simpl. f_equiv. by rewrite Hperm, Permutation_app_comm. }
  exists r, h'. split_and!; try done.
  pose proof (heap_root_min _ r Hh eq_refl) as Hmin.
  rewrite Hp in Hmin. by eapply Forall_inv_tail.
Qed.

Lemma heappop_nil :
  heappop lt [] = (Raise (IndexError "pop from empty list"), []).
Proof. done. Qed.

Lemma push_all_correct items : ∀ h,
  is_heap h → Forall P h → Forall P items →
  ∃ h', push_all lt items h = (Ok tt, h') ∧ is_heap h' ∧ h' ≡ₚ items ++ h.
Proof.
  induction items as [|x items IH]; intros h Hh HP Hitems; simpl.
  { by exists h. }
  apply Forall_cons in Hitems as [Hx Hitems].
  destruct (heappush_correct h x Hh HP Hx) as (h1 & Hrun1 & Hh1 & Hp1).
  mstep ltac:(exact Hrun1).
  destruct (IH h1) as (h2 & Hrun2 & Hh2 & Hp2); [done| |done|].
  { rewrite Hp1. by apply Forall_cons. }
  exists h2. split_and!; [done..|].
  by rewrite Hp2, Hp1, Permutation_middle.
Qed.

Lemma pop_n_correct n : ∀ h,
  is_heap h → Forall P h → length h = n →
  ∃ out, pop_n lt n h = (Ok out, []) ∧ out ≡ₚ h ∧ StronglySorted le out.
Proof.
  induction n as [|n IH]; intros h Hh HP Hlen; simpl.
  { apply nil_length_inv in Hlen as ->. exists []. split_and!; [done..|constructor]. }
  destruct (heappop_correct h Hh HP) as (x & h1 & Hrun & _ & Hh1 & Hp & Hmin).
  { by intros ->. }
  mstep ltac:(exact Hrun).
  destruct (IH h1) as (out & Hrun1 & Hp1 & Hsorted); [done| |..].
  { rewrite Hp in HP. by eapply Forall_inv_tail. }
  { apply Permutation_length in Hp. simpl in Hp. lia. }
  mstep ltac:(exact Hrun1).
  exists (x :: out). split_and!; [done|by rewrite Hp, Hp1|].
  constructor; [done|]. by rewrite Hp1.
Qed.

End Correct.
End Heapq.

(** ** Queue items and their ordering *)

(** Each queue item is the tuple [(priority, created_time, text, future)]
    built at [main.py:256].  Timestamps are [time.time()] readings, of
    which only the order and the differences are used: they are integers
    (clock ticks) here.  A future is identified by its object identity. *)
Module Job.
Record t : Type := mk {
  priority : Z;
  created_at : Z;
  text : string;
  future : nat }.

Global Instance eq_dec : EqDecision t.
Proof. solve_decision. Defined.

(** What the queue orders by before it reaches the future. *)
Definition key (j : t) : Z * Z * string := (priority j, created_at j, text j).
End Job.

(** Python compares tuples lexicographically: the first position where
    the two differ (by [==]) decides with [<].  Integers, floats and
    strings are ordered; futures are equal only to themselves and have no
    [<], so reaching two different futures raises [TypeError]. *)
Definition tuple_lt (a b : Job.t) : result bool :=
  if (Job.priority a =? Job.priority b)%Z then
    if (Job.created_at a =? Job.created_at b)%Z then
      if String.eqb (Job.text a) (Job.text b) then
        if (Job.future a =? Job.future b)%nat then Ok false
        else Raise (TypeError
          "'<' not supported between instances of 'Future' and 'Future'")
      else Ok (String.ltb (Job.text a) (Job.text b))
    else Ok (Job.created_at a <? Job.created_at b)%Z
  else Ok (Job.priority a <? Job.priority b)%Z.

(** The order on keys that [tuple_lt] computes when it does not raise. *)
Definition key_ltb (a b : Job.t) : bool :=
  if (Job.priority a =? Job.priority b)%Z then
    if (Job.created_at a =? Job.created_at b)%Z then
      String.ltb (Job.text a) (Job.text b)
    else (Job.created_at a <? Job.created_at b)%Z
  else (Job.priority a <? Job.priority b)%Z.

Section StringOrder.
Lemma ascii_compare_Lt a b :
  Ascii.compare a b = Lt ↔ (N_of_ascii a < N_of_ascii b)%N.
Proof. unfold Ascii.compare. apply N.compare_lt_iff. Qed.

Lemma ascii_compare_Eq a b : Ascii.compare a b = Eq ↔ a = b.
Proof.
  split; [apply Ascii.compare_eq_iff|].
  intros ->. unfold Ascii.compare. apply N.compare_refl.
Qed.

Lemma string_compare_refl s : String.compare s s = Eq.
Proof.
  induction s as [|c s IH]; [done|]. simpl.
  by rewrite (proj2 (ascii_compare_Eq c c) eq_refl).
Qed.

Lemma string_compare_trans a : ∀ b c,
  String.compare a b = Lt → String.compare b c = Lt → String.compare a c = Lt.
Proof.
  induction a as [|x a IH]; intros [|y b] [|z c]; simpl; try done.
  destruct (Ascii.compare x y) eqn:Hxy; try done;
    destruct (Ascii.compare y z) eqn:Hyz; try done.
  - apply ascii_compare_Eq in Hxy as ->. apply ascii_compare_Eq in Hyz as ->.
    rewrite (proj2 (ascii_compare_Eq z z) eq_refl). apply IH.
  - apply ascii_compare_Eq in Hxy as ->. by rewrite Hyz.
  - apply ascii_compare_Eq in Hyz as ->. by rewrite Hxy.
  - apply ascii_compare_Lt in Hxy. apply ascii_compare_Lt in Hyz.
    assert (Ascii.compare x z = Lt) as ->; [|done].
    apply ascii_compare_Lt. by eapply N.lt_trans.
Qed.

Lemma string_ltb_Lt a b : String.ltb a b = true ↔ String.compare a b = Lt.
Proof. unfold String.ltb. by destruct (String.compare a b). Qed.

Lemma string_ltb_asym a b : String.ltb a b = true → String.ltb b a = false.
Proof.
  rewrite string_ltb_Lt. intros H. unfold String.ltb.
  by rewrite String.compare_antisym, H.
Qed.

Lemma string_eqb_neq_total a b :
  String.eqb a b = false → String.ltb a b = false → String.ltb b a = true.
Proof.
  intros Hne Hlt. apply String.eqb_neq in Hne. unfold String.ltb in *.
  rewrite String.compare_antisym.
  destruct (String.compare a b) eqn:E; try done.
  by apply String.compare_eq_iff in E.
Qed.

Lemma string_ltb_trans a b c :
  String.ltb a b = true → String.ltb b c = true → String.ltb a c = true.
Proof. rewrite !string_ltb_Lt. apply string_compare_trans. Qed.

Lemma string_ltb_irrefl a : String.ltb a a = false.
Proof. unfold String.ltb. by rewrite string_compare_refl. Qed.

(** "Not after" is transitive. *)
Lemma string_ltb_trans' a b c :
  String.ltb b a = false → String.ltb c b = false → String.ltb c a = false.
Proof.
  intros Hba Hcb.
  destruct (String.eqb a b) eqn:Hab.
  { apply String.eqb_eq in Hab as ->. done. }
  destruct (String.eqb b c) eqn:Hbc.
  { apply String.eqb_eq in Hbc as ->. done. }
  rewrite String.eqb_sym in Hab. rewrite String.eqb_sym in Hbc.
  pose proof (string_eqb_neq_total _ _ Hab Hba) as H1.
  pose proof (string_eqb_neq_total _ _ Hbc Hcb) as H2.
  apply string_ltb_asym. by eapply string_ltb_trans.
Qed.
End StringOrder.

Section KeyOrder.
Local Open Scope Z_scope.

Lemma key_ltb_asym a b : key_ltb a b = true → key_ltb b a = false.
Proof.
  unfold key_ltb.
  rewrite (Z.eqb_sym (Job.priority b)), (Z.eqb_sym (Job.created_at b)).
  destruct (Z.eqb_spec (Job.priority a) (Job.priority b));
    destruct (Z.eqb_spec (Job.created_at a) (Job.created_at b));
    rewrite ?Z.ltb_lt, ?Z.ltb_ge; try lia.
  apply string_ltb_asym.
Qed.

Lemma key_ltb_trans' a b c :
  key_ltb b a = false → key_ltb c b = false → key_ltb c a = false.
Proof.
  unfold key_ltb.
  destruct (Z.eqb_spec (Job.priority b) (Job.priority a));
    destruct (Z.eqb_spec (Job.priority c) (Job.priority b));
    destruct (Z.eqb_spec (Job.priority c) (Job.priority a));
    destruct (Z.eqb_spec (Job.created_at b) (Job.created_at a));
    destruct (Z.eqb_spec (Job.created_at c) (Job.created_at b));
    destruct (Z.eqb_spec (Job.created_at c) (Job.created_at a));
    rewrite ?Z.ltb_lt, ?Z.ltb_ge; try lia.
  apply string_ltb_trans'.
Qed.

Lemma key_ltb_irrefl a : key_ltb a a = false.
Proof.
  unfold key_ltb. rewrite !Z.eqb_refl. apply string_ltb_irrefl.
Qed.

(** Two entries with different keys, or the same entry twice, compare
    without an exception. *)
Lemma tuple_lt_key a b :
  a = b ∨ Job.key a ≠ Job.key b → tuple_lt a b = Ok (key_ltb a b).
Proof.
  intros [->|Hne]; unfold tuple_lt, key_ltb.
  - by rewrite !Z.eqb_refl, String.eqb_refl, Nat.eqb_refl, string_ltb_irrefl.
  - destruct (Z.eqb_spec (Job.priority a) (Job.priority b)) as [Hp|]; [|done].
    destruct (Z.eqb_spec (Job.created_at a) (Job.created_at b)) as [Ht|]; [|done].
    destruct (String.eqb_spec (Job.text a) (Job.text b)) as [Hs|]; [|done].
    destruct Hne. unfold Job.key. by rewrite Hp, Ht, Hs.
Qed.

(** With equal keys and distinct futures the comparison raises. *)
Lemma tuple_lt_TypeError a b :
  Job.key a = Job.key b → Job.future a ≠ Job.future b →
  ∃ msg, tuple_lt a b = Raise (TypeError msg).
Proof.
  unfold Job.key, tuple_lt. intros [= -> -> ->] Hf.
  rewrite !Z.eqb_refl, String.eqb_refl.
  apply Nat.eqb_neq in Hf as ->. eauto.
Qed.
End KeyOrder.

(** [str(n)] for an integer: its decimal representation. *)
Definition str_int (n : Z) : string := pretty n.
Global Arguments str_int : simpl never.

(** ** The service state *)

(** [class TranslateRequest(BaseModel)] *)
Module TranslateRequest.
Record t : Type := mk {
  text : string;
  priority : Z }.
End TranslateRequest.

(** [class TranslateResponse(BaseModel)]; the worker's [result] dict has
    exactly these keys, and the response is built from that dict
    key by key. *)
Module TranslateResponse.
Record t : Type := mk {
  original_text : string;
  translated_text : string;
  priority : Z;
  processing_time : Z;
  queued_time : Z;
  model_loaded : bool }.
End TranslateResponse.

(** The states of an [asyncio.Future]. *)
Inductive Future : Type :=
  | Pending
  | Cancelled
  | Result (r : TranslateResponse.t)
  | Exception (e : Exn).

(** The effects of the handler and of the worker, in program order.
    [print] calls are left out. *)
Inductive Event : Type :=
  | EvCreateFuture (future : nat)
  | EvPut (item : Job.t)
  | EvRequestCounterInc (label : string)
  | EvGet (item : Job.t)
  | EvQueueTimeObserve (label : string) (v : Z)
  | EvInProgressInc (label : string)
  | EvTranslateText (text : string)
  | EvSetResult (future : nat) (r : TranslateResponse.t)
  | EvSetException (future : nat) (e : Exn)
  | EvInProgressDec (label : string)
  | EvTaskDone
  | EvLatencyObserve (label : string) (v : Z).

(** The classes of [prometheus_client] metrics and the methods their
    labelled children offer: [inc] on counters and gauges, [dec] on
    gauges only, [observe] on histograms. *)
Inductive MetricClass : Type := Counter | Gauge | Histogram.

Definition has_dec (c : MetricClass) : bool :=
  match c with Gauge => true | Counter | Histogram => false end.

(** [IN_PROGRESS = Counter("mt_requests_in_progress", ...)] *)
Definition IN_PROGRESS_class : MetricClass := Counter.

Definition MIN_PRIORITY : Z := 0.
Definition MAX_PRIORITY : Z := 3.

(** The module globals.  [model] and [tokenizer] only matter through
    [is None]; [task_queue] is the heap list of the queue and
    [unfinished_tasks] its [_unfinished_tasks]; [futures] holds the state
    of every future created so far.  [log] is not a variable of the
    program: it records the effects in the order in which they happen. *)
Record State : Type := mkState {
  model : option unit;
  tokenizer : option unit;
  task_queue : list Job.t;
  unfinished_tasks : nat;
  futures : gmap nat Future;
  REQUEST_COUNTER : gmap string Z;
  LATENCY_HISTOGRAM : gmap string (list Z);
  QUEUE_TIME_HISTOGRAM : gmap string (list Z);
  IN_PROGRESS : gmap string Z;
  log : list Event }.

Definition set_task_queue (q : list Job.t) (st : State) : State :=
  mkState (model st) (tokenizer st) q (unfinished_tasks st) (futures st)
    (REQUEST_COUNTER st) (LATENCY_HISTOGRAM st) (QUEUE_TIME_HISTOGRAM st)
    (IN_PROGRESS st) (log st).
Definition set_unfinished_tasks (n : nat) (st : State) : State :=
  mkState (model st) (tokenizer st) (task_queue st) n (futures st)
    (REQUEST_COUNTER st) (LATENCY_HISTOGRAM st) (QUEUE_TIME_HISTOGRAM st)
    (IN_PROGRESS st) (log st).
Definition set_futures (f : gmap nat Future) (st : State) : State :=
  mkState (model st) (tokenizer st) (task_queue st) (unfinished_tasks st) f
    (REQUEST_COUNTER st) (LATENCY_HISTOGRAM st) (QUEUE_TIME_HISTOGRAM st)
    (IN_PROGRESS st) (log st).
Definition set_REQUEST_COUNTER (m : gmap string Z) (st : State) : State :=
  mkState (model st) (tokenizer st) (task_queue st) (unfinished_tasks st)
    (futures st) m (LATENCY_HISTOGRAM st) (QUEUE_TIME_HISTOGRAM st)
    (IN_PROGRESS st) (log st).
Definition set_LATENCY_HISTOGRAM (m : gmap string (list Z)) (st : State) : State :=
  mkState (model st) (tokenizer st) (task_queue st) (unfinished_tasks st)
    (futures st) (REQUEST_COUNTER st) m (QUEUE_TIME_HISTOGRAM st)
    (IN_PROGRESS st) (log st).
Definition set_QUEUE_TIME_HISTOGRAM (m : gmap string (list Z)) (st : State) : State :=
  mkState (model st) (tokenizer st) (task_queue st) (unfinished_tasks st)
    (futures st) (REQUEST_COUNTER st) (LATENCY_HISTOGRAM st) m
    (IN_PROGRESS st) (log st).
Definition set_IN_PROGRESS (m : gmap string Z) (st : State) : State :=
  mkState (model st) (tokenizer st) (task_queue st) (unfinished_tasks st)
    (futures st) (REQUEST_COUNTER st) (LATENCY_HISTOGRAM st)
    (QUEUE_TIME_HISTOGRAM st) m (log st).
Definition emit (ev : Event) (st : State) : State :=
  mkState (model st) (tokenizer st) (task_queue st) (unfinished_tasks st)
    (futures st) (REQUEST_COUNTER st) (LATENCY_HISTOGRAM st)
    (QUEUE_TIME_HISTOGRAM st) (IN_PROGRESS st) (log st ++ [ev]).

(** The state once [startup_event] has run: [loaded] tells whether the
    model and the tokenizer were loaded ([None] for both otherwise). *)
Definition startup (loaded : bool) : State :=
  let m := if loaded then Some tt else None in
  mkState m m [] 0 ∅ ∅ ∅ ∅ ∅ [].

(** *** Metrics *)

Definition value_of (m : gmap string Z) (label : string) : Z :=
  default 0%Z (m !! label).

Definition observations (m : gmap string (list Z)) (label : string) : list Z :=
  default [] (m !! label).

(** [REQUEST_COUNTER.labels(priority=label).inc()] *)
Definition request_counter_inc (label : string) : M State unit :=
  modify (λ st,
    emit (EvRequestCounterInc label)
      (set_REQUEST_COUNTER
         (<[label := (value_of (REQUEST_COUNTER st) label + 1)%Z]>
            (REQUEST_COUNTER st)) st)).

(** [LATENCY_HISTOGRAM.labels(priority=label).observe(v)] *)
Definition latency_observe (label : string) (v : Z) : M State unit :=
  modify (λ st,
    emit (EvLatencyObserve label v)
      (set_LATENCY_HISTOGRAM
         (<[label := observations (LATENCY_HISTOGRAM st) label ++ [v]]>
            (LATENCY_HISTOGRAM st)) st)).

(** [QUEUE_TIME_HISTOGRAM.labels(priority=label).observe(v)] *)
Definition queue_time_observe (label : string) (v : Z) : M State unit :=
  modify (λ st,
    emit (EvQueueTimeObserve label v)
      (set_QUEUE_TIME_HISTOGRAM
         (<[label := observations (QUEUE_TIME_HISTOGRAM st) label ++ [v]]>
            (QUEUE_TIME_HISTOGRAM st)) st)).

(** [IN_PROGRESS.labels(priority=label).inc()] *)
Definition in_progress_inc (label : string) : M State unit :=
  modify (λ st,
    emit (EvInProgressInc label)
      (set_IN_PROGRESS
         (<[label := (value_of (IN_PROGRESS st) label + 1)%Z]>
            (IN_PROGRESS st)) st)).

(** [IN_PROGRESS.labels(priority=label).dec()]: the attribute lookup
    fails on a metric class without [dec]. *)
Definition in_progress_dec (label : string) : M State unit :=
  if has_dec IN_PROGRESS_class then
    modify (λ st,
      emit (EvInProgressDec label)
        (set_IN_PROGRESS
           (<[label := (value_of (IN_PROGRESS st) label - 1)%Z]>
              (IN_PROGRESS st)) st))
  else raise (AttributeError "'Counter' object has no attribute 'dec'").

(** *** The queue *)

(** Runs a computation on the heap list of [task_queue]. *)
Definition on_queue {A} (m : M (list Job.t) A) : M State A :=
  λ st, let '(r, q) := m (task_queue st) in (r, set_task_queue q st).

(** [await task_queue.put(item)] on an unbounded queue: [_put] is
    [heappush], then the count of unfinished tasks grows. *)
Definition queue_put (item : Job.t) : M State unit :=
  on_queue (Heapq.heappush tuple_lt item);;
  modify (λ st,
    emit (EvPut item) (set_unfinished_tasks (S (unfinished_tasks st)) st)).

(** [task_queue.get()] once an item is there: [_get] is [heappop]. *)
Definition queue_get : M State Job.t :=
  item ← on_queue (Heapq.heappop tuple_lt);
  modify (emit (EvGet item));;
  mret item.

(** [task_queue.task_done()] *)
Definition task_done : M State unit :=
  st ← get;
  match unfinished_tasks st with
  | 0 => raise (ValueError "task_done() called too many times")
  | S n => modify (λ st, emit EvTaskDone (set_unfinished_tasks n st))
  end.

(** [task_queue.qsize()] *)
Definition qsize (st : State) : nat := length (task_queue st).

(** *** Futures *)

(** The identity of a newly created future: distinct from all others. *)
Definition new_future (fs : gmap nat Future) : nat := fresh (dom fs).
Global Arguments new_future : simpl never.

Lemma new_future_fresh fs : fs !! new_future fs = None.
Proof. unfold new_future. apply not_elem_of_dom. apply is_fresh. Qed.

(** [loop.create_future()] *)
Definition create_future : M State nat :=
  st ← get;
  let future := new_future (futures st) in
  modify (λ st, emit (EvCreateFuture future)
                  (set_futures (<[future := Pending]> (futures st)) st));;
  mret future.

(** [future.cancelled()] *)
Definition future_cancelled (future : nat) : M State bool :=
  st ← get;
  mret (match futures st !! future with Some Cancelled => true | _ => false end).

(** [future.set_result(r)] and [future.set_exception(e)]: only a pending
    future accepts an outcome. *)
Definition future_resolve (future : nat) (outcome : Future) (ev : Event)
  : M State unit :=
  st ← get;
  match futures st !! future with
  | Some Pending =>
      modify (λ st, emit ev (set_futures (<[future := outcome]> (futures st)) st))
  | _ => raise (InvalidStateError "invalid state")
  end.

Definition future_set_result (future : nat) (r : TranslateResponse.t)
  : M State unit :=
  future_resolve future (Result r) (EvSetResult future r).

Definition future_set_exception (future : nat) (e : Exn) : M State unit :=
  future_resolve future (Exception e) (EvSetException future e).

(** [future.cancel()], as done by the event loop when the task that
    awaits the future is cancelled: a pending future becomes cancelled. *)
Definition future_cancel (future : nat) (st : State) : State :=
  match futures st !! future with
  | Some Pending => set_futures (<[future := Cancelled]> (futures st)) st
  | _ => st
  end.

(** *** Exception handling *)

(** [try: body / except Exception as e: handler(e)] *)
Definition try_except {S A} (body : M S A) (handler : Exn → M S A) : M S A :=
  λ s, match body s with
       | (Ok a, s') => (Ok a, s')
       | (Raise e, s') => handler e s'
       end.

(** [try: body / finally: final]; an exception raised by [final]
    replaces the outcome of [body]. *)
Definition try_finally {S A} (body : M S A) (final : M S unit) : M S A :=
  λ s, let '(r, s') := body s in
       match final s' with
       | (Ok _, s'') => (r, s'')
       | (Raise e, s'') => (Raise e, s'')
       end.

(** ** The request handler and the worker *)

(** The local variables of [translate] that are live while it waits at
    [await future]. *)
Module Frame.
Record t : Type := mk {
  future : nat;
  start_total : Z;
  priority_label : string }.
End Frame.

(** How a handler suspended at [await future] goes on. *)
Inductive Resumed : Type :=
  | StillWaiting
  | Returned (r : TranslateResponse.t)
  | Raised (e : Exn)
  | HandlerCancelled.

(** How one pass of [while True] in [worker_loop] ends. *)
Inductive Ctl : Type := Continue | Break | Suspend.

(** [model is None or tokenizer is None] *)
Definition not_loaded (st : State) : bool :=
  match model st, tokenizer st with
  | Some _, Some _ => false
  | _, _ => true
  end.

(** Normalises nested updates of the state record, innermost first. *)
Ltac norm_state :=
  cbv [emit set_task_queue set_unfinished_tasks set_futures
       set_REQUEST_COUNTER set_LATENCY_HISTOGRAM set_QUEUE_TIME_HISTOGRAM
       set_IN_PROGRESS model tokenizer task_queue unfinished_tasks futures
       REQUEST_COUNTER LATENCY_HISTOGRAM QUEUE_TIME_HISTOGRAM IN_PROGRESS log].

Section Service.
(** The Job Processor: what the tokenizer and the model return for a
    text, or the exception they raise. *)
Variable processor : string → result string.

(** [translate_text(text)] *)
Definition translate_text (text : string) : M State string :=
  modify (emit (EvTranslateText text));;
  st ← get;
  if not_loaded st then raise (RuntimeError "Model not loaded")
  else lift (processor text).

(** [translate(req)] up to [await future] (main.py:234-262); [now] is
    the reading of [time.time()] at line 248. *)
Definition translate_submit (req : TranslateRequest.t) (now : Z)
  : M State Frame.t :=
  st ← get;
  if not_loaded st then raise (HTTPException 500 "Model not loaded")
  else if ((TranslateRequest.priority req <? MIN_PRIORITY)%Z
           || (TranslateRequest.priority req >? MAX_PRIORITY)%Z) then
    raise (HTTPException 400
             ("priority must be between " +:+ str_int MIN_PRIORITY
              +:+ " and " +:+ str_int MAX_PRIORITY))
  else
    let priority := TranslateRequest.priority req in
    let priority_label := str_int priority in
    let start_total := now in
    let created_at := start_total in
    future ← create_future;
    queue_put (Job.mk priority created_at (TranslateRequest.text req) future);;
    request_counter_inc priority_label;;
    mret (Frame.mk future start_total priority_label).

(** [translate(req)] from [await future] on (main.py:264-272); [now] is
    the reading of [time.time()] at line 269. *)
Definition translate_resume (fr : Frame.t) (now : Z) (st : State)
  : Resumed * State :=
  match futures st !! Frame.future fr with
  | Some (Result result) =>
      let total_latency := (now - Frame.start_total fr)%Z in
      let '(_, st') :=
        latency_observe (Frame.priority_label fr) total_latency st in
      (Returned result, st')
  | Some (Exception e) => (Raised (HTTPException 500 (str_exn e)), st)
  | Some Cancelled => (HandlerCancelled, st)
  | Some Pending | None => (StillWaiting, st)
  end.

(** One pass of the worker's [while True] body once [task_queue.get()]
    has an item (main.py:130-163); [start_proc] and [end_proc] are the
    readings of [time.time()] at lines 133 and 146. *)
Definition worker_body (start_proc end_proc : Z) : M State unit :=
  item ← queue_get;
  let priority := Job.priority item in
  let created_at := Job.created_at item in
  let text := Job.text item in
  let future := Job.future item in
  let priority_label := str_int priority in
  let queue_time := (start_proc - created_at)%Z in
  queue_time_observe priority_label queue_time;;
  in_progress_inc priority_label;;
  try_finally
    (try_except
       (translated ← translate_text text;
        let proc_time := (end_proc - start_proc)%Z in
        let result :=
          TranslateResponse.mk text translated priority proc_time
            queue_time true in
        cancelled ← future_cancelled future;
        if negb cancelled then future_set_result future result
        else mret tt)
       (λ e,
        cancelled ← future_cancelled future;
        if negb cancelled then future_set_exception future e
        else mret tt))
    (in_progress_dec priority_label;;
     task_done).

(** One pass of [while True] (main.py:127-169).  [cancel] tells whether
    the task is cancelled while it waits in [task_queue.get()]; on an
    empty queue the worker stays suspended there.  An exception that
    leaves the body is printed and the loop goes on. *)
Definition worker_iteration (cancel : bool) (start_proc end_proc : Z)
    (st : State) : Ctl * State :=
  if cancel then (Break, st)
  else match task_queue st with
       | [] => (Suspend, st)
       | _ :: _ =>
           let '(_, st') :=
             try_except (worker_body start_proc end_proc) (λ e, mret tt) st in
           (Continue, st')
       end.

(** [worker_loop()] against the readings of the clock, one pair per
    pass, while no cancellation arrives. *)
Fixpoint worker_loop (clock : list (Z * Z)) (st : State) : Ctl * State :=
  match clock with
  | [] => (Continue, st)
  | (start_proc, end_proc) :: clock' =>
      match worker_iteration false start_proc end_proc st with
      | (Continue, st') => worker_loop clock' st'
      | stop => stop
      end
  end.

(** *** What one pass of the worker does *)

(** What [translate_text] yields in state [st]. *)
Definition process_outcome (st : State) (text : string) : result string :=
  if not_loaded st then Raise (RuntimeError "Model not loaded")
  else processor text.

(** The outcome the worker computes for job [j]. *)
Definition job_outcome (st : State) (j : Job.t) (start_proc end_proc : Z)
  : Future :=
  match process_outcome st (Job.text j) with
  | Ok translated =>
      Result (TranslateResponse.mk (Job.text j) translated (Job.priority j)
                (end_proc - start_proc) (start_proc - Job.created_at j) true)
  | Raise e => Exception e
  end.

Definition is_pending (f : option Future) : bool :=
  match f with Some Pending => true | _ => false end.

Definition resolve_event (future : nat) (outcome : Future) : list Event :=
  match outcome with
  | Result r => [EvSetResult future r]
  | Exception e => [EvSetException future e]
  | Pending | Cancelled => []
  end.

(** The state after the pass that dequeued [j] and left [q'] queued. *)
Definition after_job (st : State) (j : Job.t) (q' : list Job.t)
    (start_proc end_proc : Z) : State :=
  let label := str_int (Job.priority j) in
  let queue_time := (start_proc - Job.created_at j)%Z in
  let outcome := job_outcome st j start_proc end_proc in
  let pending := is_pending (futures st !! Job.future j) in
  mkState (model st) (tokenizer st) q' (unfinished_tasks st)
    (if pending then <[Job.future j := outcome]> (futures st) else futures st)
    (REQUEST_COUNTER st) (LATENCY_HISTOGRAM st)
    (<[label := observations (QUEUE_TIME_HISTOGRAM st) label ++ [queue_time]]>
       (QUEUE_TIME_HISTOGRAM st))
    (<[label := (value_of (IN_PROGRESS st) label + 1)%Z]> (IN_PROGRESS st))
    (log st ++
       [EvGet j; EvQueueTimeObserve label queue_time; EvInProgressInc label;
        EvTranslateText (Job.text j)] ++
       (if pending then resolve_event (Job.future j) outcome else [])).

Lemma worker_body_after_job st j q' start_proc end_proc :
  Heapq.heappop tuple_lt (task_queue st) = (Ok j, q') →
  worker_body start_proc end_proc st =
    (Raise (AttributeError "'Counter' object has no attribute 'dec'"),
     after_job st j q' start_proc end_proc).
Proof.
  destruct st as [m tk q u fs rc lh qh ip lg]. simpl. intros Hpop.
  unfold worker_body, queue_get, on_queue, mbind, M_bind. simpl.
  rewrite Hpop.
  unfold after_job, job_outcome, process_outcome, not_loaded, try_finally,
    try_except, translate_text, future_cancelled, future_set_result,
    future_set_exception, future_resolve, in_progress_dec, in_progress_inc,
    queue_time_observe, modify, get, raise, lift, mbind, M_bind, mret, M_ret.
  simpl.
  destruct m, tk; simpl;
    try destruct (processor (Job.text j)); simpl;
    destruct (fs !! Job.future j) as [[]|] eqn:Hf; simpl;
    do 3 (norm_state; simpl; rewrite ?Hf);
    rewrite ?app_nil_r, <-?app_assoc; reflexivity.
Qed.

Lemma worker_iteration_after_job st j q' start_proc end_proc :
  Heapq.heappop tuple_lt (task_queue st) = (Ok j, q') →
  worker_iteration false start_proc end_proc st =
    (Continue, after_job st j q' start_proc end_proc).
Proof.
  intros Hpop. unfold worker_iteration, try_except.
  rewrite (worker_body_after_job st j q' _ _ Hpop).
  destruct (task_queue st); [|done].
  by rewrite Heapq.heappop_nil in Hpop.
Qed.

Lemma after_job_futures st j q' start_proc end_proc :
  futures (after_job st j q' start_proc end_proc) =
    if is_pending (futures st !! Job.future j)
    then <[Job.future j := job_outcome st j start_proc end_proc]> (futures st)
    else futures st.
Proof. done. Qed.

Lemma after_job_log st j q' start_proc end_proc :
  log (after_job st j q' start_proc end_proc) =
    log st ++
      [EvGet j;
       EvQueueTimeObserve (str_int (Job.priority j))
         (start_proc - Job.created_at j);
       EvInProgressInc (str_int (Job.priority j));
       EvTranslateText (Job.text j)] ++
      (if is_pending (futures st !! Job.future j)
       then resolve_event (Job.future j) (job_outcome st j start_proc end_proc)
       else []).
Proof. done. Qed.

Lemma after_job_task_queue st j q' start_proc end_proc :
  task_queue (after_job st j q' start_proc end_proc) = q'.
Proof. done. Qed.

(** *** What an accepted submission does *)

(** The job that [translate] builds for [req] at time [now]. *)
Definition job_of (st : State) (req : TranslateRequest.t) (now : Z) : Job.t :=
  Job.mk (TranslateRequest.priority req) now (TranslateRequest.text req)
    (new_future (futures st)).

Definition frame_of (st : State) (req : TranslateRequest.t) (now : Z)
  : Frame.t :=
  Frame.mk (new_future (futures st)) now
    (str_int (TranslateRequest.priority req)).

(** The state once the job is queued as [q'] and counted. *)
Definition after_submit (st : State) (req : TranslateRequest.t) (now : Z)
    (q' : list Job.t) : State :=
  let label := str_int (TranslateRequest.priority req) in
  let job := job_of st req now in
  mkState (model st) (tokenizer st) q' (S (unfinished_tasks st))
    (<[Job.future job := Pending]> (futures st))
    (<[label := (value_of (REQUEST_COUNTER st) label + 1)%Z]>
       (REQUEST_COUNTER st))
    (LATENCY_HISTOGRAM st) (QUEUE_TIME_HISTOGRAM st) (IN_PROGRESS st)
    (log st ++ [EvCreateFuture (Job.future job); EvPut job;
                EvRequestCounterInc label]).

Definition in_range (req : TranslateRequest.t) : Prop :=
  (MIN_PRIORITY ≤ TranslateRequest.priority req ≤ MAX_PRIORITY)%Z.

Lemma in_range_test req :
  in_range req →
  ((TranslateRequest.priority req <? MIN_PRIORITY)%Z
   || (TranslateRequest.priority req >? MAX_PRIORITY)%Z) = false.
Proof.
  unfold in_range. intros [? ?]. rewrite Z.gtb_ltb.
  apply orb_false_intro; apply Z.ltb_ge; lia.
Qed.

Lemma out_of_range_test req :
  ¬ in_range req →
  ((TranslateRequest.priority req <? MIN_PRIORITY)%Z
   || (TranslateRequest.priority req >? MAX_PRIORITY)%Z) = true.
Proof.
  unfold in_range. intros Hout. rewrite Z.gtb_ltb. apply orb_true_iff.
  rewrite !Z.ltb_lt. lia.
Qed.

Lemma translate_submit_accepted st req now q' :
  not_loaded st = false → in_range req →
  Heapq.heappush tuple_lt (job_of st req now) (task_queue st) = (Ok tt, q') →
  translate_submit req now st =
    (Ok (frame_of st req now), after_submit st req now q').
Proof.
  intros Hloaded Hrange Hpush.
  unfold translate_submit, mbind, M_bind, get. rewrite Hloaded.
  rewrite (in_range_test _ Hrange).
  destruct st as [m tk q u fs rc lh qh ip lg]. simpl in *.
  unfold create_future, queue_put, on_queue, request_counter_inc, modify,
    get, mbind, M_bind, mret, M_ret. simpl.
  unfold job_of in Hpush. simpl in Hpush. rewrite Hpush. simpl.
  unfold after_submit, frame_of, job_of. norm_state.
  by rewrite <-!app_assoc.
Qed.

End Service.


(** ** Dequeue order of the priority queue *)

(** Any two entries are the same entry or differ before the future. *)
Definition comparable (q : list Job.t) : Prop :=
  ∀ a b, a ∈ q → b ∈ q → a = b ∨ Job.key a ≠ Job.key b.

(** [a] is served before [b]: lower priority number first, then the
    earlier enqueue timestamp. *)
Definition job_before (a b : Job.t) : Prop :=
  (Job.priority a < Job.priority b)%Z ∨
  (Job.priority a = Job.priority b ∧ (Job.created_at a < Job.created_at b)%Z).

(** Enqueue timestamps grow strictly along the list. *)
Definition increasing_timestamps (jobs : list Job.t) : Prop :=
  StronglySorted (λ a b, (Job.created_at a < Job.created_at b)%Z) jobs.

(** [a] occurs before [b] in [l]. *)
Definition precedes (a b : Job.t) (l : list Job.t) : Prop :=
  ∃ l1 l2 l3, l = l1 ++ a :: l2 ++ b :: l3.

Section QueueOrder.
Local Open Scope Z_scope.

Lemma comparable_lt_ok q :
  comparable q → ∀ a b, a ∈ q → b ∈ q → tuple_lt a b = Ok (key_ltb a b).
Proof. intros Hq a b Ha Hb. apply tuple_lt_key. by apply Hq. Qed.

Lemma comparable_cons x q :
  comparable q → Forall (λ y, Job.key y ≠ Job.key x) q → comparable (x :: q).
Proof.
  intros Hq Hx a b Ha Hb. rewrite Forall_forall in Hx.
  apply elem_of_cons in Ha as [->|Ha]; apply elem_of_cons in Hb as [->|Hb].
  - by left.
  - right. intros Heq. by apply (Hx b).
  - right. by apply Hx.
  - by apply Hq.
Qed.

Lemma comparable_perm q q' : q ≡ₚ q' → comparable q → comparable q'.
Proof.
  intros Hp Hq a b Ha Hb. apply Hq; by rewrite Hp.
Qed.

Lemma comparable_tail x q : comparable (x :: q) → comparable q.
Proof. intros Hq a b Ha Hb. apply Hq; by right. Qed.

Lemma increasing_comparable jobs : increasing_timestamps jobs → comparable jobs.
Proof.
  induction 1 as [|x l Hl IH Hx]; intros a b Ha Hb.
  { by apply elem_of_nil in Ha. }
  rewrite Forall_forall in Hx.
  apply elem_of_cons in Ha as [->|Ha]; apply elem_of_cons in Hb as [->|Hb].
  - by left.
  - right. intros [= _ Ht _]. specialize (Hx b Hb). lia.
  - right. intros [= _ Ht _]. specialize (Hx a Ha). lia.
  - by apply IH.
Qed.

Lemma increasing_NoDup jobs :
  increasing_timestamps jobs → NoDup (Job.created_at <$> jobs).
Proof.
  induction 1 as [|x l Hl IH Hx]; simpl; constructor; [|done].
  rewrite Forall_forall in Hx.
  intros (y & Hy & Hin)%list_elem_of_fmap. specialize (Hx y Hin). lia.
Qed.

(** The queue built from comparable jobs empties in key order. *)
Lemma drain_sorted jobs :
  comparable jobs →
  ∃ q out,
    Heapq.push_all tuple_lt jobs [] = (Ok tt, q) ∧
    Heapq.pop_n tuple_lt (length jobs) q = (Ok out, []) ∧
    out ≡ₚ jobs ∧
    StronglySorted (Heapq.le key_ltb) out.
Proof.
  intros Hc.
  destruct (Heapq.push_all_correct tuple_lt key_ltb (.∈ jobs)
              (comparable_lt_ok jobs Hc) key_ltb_asym key_ltb_trans'
              jobs [])
    as (q & Hpush & Hheap & Hperm).
  { apply Heapq.is_heap_nil. }
  { constructor. }
  { by apply Forall_forall. }
  rewrite app_nil_r in Hperm.
  destruct (Heapq.pop_n_correct tuple_lt key_ltb (.∈ jobs)
              (comparable_lt_ok jobs Hc) key_ltb_asym key_ltb_trans'
              (length jobs) q)
    as (out & Hpop & Hperm' & Hsorted); [done| |by rewrite Hperm|].
  { rewrite Hperm. by apply Forall_forall. }
  exists q, out. split_and!; [done..|by rewrite Hperm'|done].
Qed.

(** With distinct timestamps the key order is [job_before]. *)
Lemma le_job_before x y :
  Job.created_at x ≠ Job.created_at y →
  Heapq.le key_ltb x y → job_before x y.
Proof.
  unfold Heapq.le, key_ltb, job_before. intros Hne Hle.
  destruct (Z.eqb_spec (Job.priority y) (Job.priority x));
    [destruct (Z.eqb_spec (Job.created_at y) (Job.created_at x))|];
    rewrite ?Z.ltb_ge in Hle; lia.
Qed.

Lemma sorted_job_before out :
  NoDup (Job.created_at <$> out) →
  StronglySorted (Heapq.le key_ltb) out → StronglySorted job_before out.
Proof.
  intros Hnd Hs. induction Hs as [|x l Hl IH Hx]; constructor.
  - apply IH. by apply NoDup_cons in Hnd as [_ ?].
  - apply NoDup_cons in Hnd as [Hnot _].
    rewrite Forall_forall in Hx. apply Forall_forall. intros y Hy.
    apply le_job_before; [|by apply Hx].
    intros Heq. apply Hnot. rewrite Heq. by apply list_elem_of_fmap_2.
Qed.

Lemma job_before_asym a b : job_before a b → job_before b a → False.
Proof. unfold job_before. lia. Qed.

Lemma sorted_precedes (R : Job.t → Job.t → Prop) a b out :
  a ≠ b →
  StronglySorted R out → a ∈ out → b ∈ out → ¬ R b a → precedes a b out.
Proof.
  intros Hne Hs. induction Hs as [|x l Hl IH Hx]; intros Ha Hb Hba.
  { by apply elem_of_nil in Ha. }
  rewrite Forall_forall in Hx.
  apply elem_of_cons in Ha as [->|Ha]; apply elem_of_cons in Hb as [->|Hb].
  - done.
  - apply list_elem_of_split in Hb as (l2 & l3 & ->). by exists [], l2, l3.
  - destruct Hba. by apply Hx.
  - destruct (IH Ha Hb Hba) as (l1 & l2 & l3 & ->). by exists (x :: l1), l2, l3.
Qed.
(** The invariant of [task_queue]: a heap for the key order whose
    entries can all be compared. *)
Definition queue_inv (q : list Job.t) : Prop :=
  Heapq.is_heap key_ltb q ∧ comparable q.

(** No queued job has the key of [item]. *)
Definition fresh_key (item : Job.t) (q : list Job.t) : Prop :=
  Forall (λ y, Job.key y ≠ Job.key item) q.

Lemma queue_inv_nil : queue_inv [].
Proof.
  split; [apply Heapq.is_heap_nil|].
  intros a b Ha. by apply elem_of_nil in Ha.
Qed.

Lemma queue_put_ok q item :
  queue_inv q → fresh_key item q →
  ∃ q', Heapq.heappush tuple_lt item q = (Ok tt, q') ∧
        queue_inv q' ∧ q' ≡ₚ item :: q.
Proof.
  intros [Hheap Hcmp] Hfresh.
  pose proof (comparable_cons item q Hcmp Hfresh) as Hcmp'.
  destruct (Heapq.heappush_correct tuple_lt key_ltb (.∈ item :: q)
              (comparable_lt_ok _ Hcmp') key_ltb_asym key_ltb_trans' q item)
    as (q' & Hrun & Hheap' & Hperm); [done| |by left|].
  { apply Forall_forall. intros y Hy. by right. }
  exists q'. split_and!; [done| |done].
  split; [done|]. by eapply comparable_perm.
Qed.

Lemma queue_get_ok q :
  queue_inv q → q ≠ [] →
  ∃ j q', Heapq.heappop tuple_lt q = (Ok j, q') ∧
          queue_inv q' ∧ q ≡ₚ j :: q' ∧ Forall (Heapq.le key_ltb j) q'.
Proof.
  intros [Hheap Hcmp] Hne.
  destruct (Heapq.heappop_correct tuple_lt key_ltb (.∈ q)
              (comparable_lt_ok _ Hcmp) key_ltb_asym key_ltb_trans' q)
    as (j & q' & Hrun & _ & Hheap' & Hperm & Hmin); [done| |done|].
  { by apply Forall_forall. }
  exists j, q'. split_and!; [done| |done..].
  split; [done|]. eapply comparable_tail, comparable_perm; eauto.
Qed.

(** At any dequeue, the job returned is before every job that stays
    queued: lowest priority number, then earliest timestamp. *)
Lemma get_returns_first q :
  queue_inv q → NoDup (Job.created_at <$> q) → q ≠ [] →
  ∃ j q', Heapq.heappop tuple_lt q = (Ok j, q') ∧
          queue_inv q' ∧ q ≡ₚ j :: q' ∧ Forall (job_before j) q'.
Proof.
  intros Hinv Hnd Hne.
  destruct (queue_get_ok q Hinv Hne) as (j & q' & Hpop & Hinv' & Hperm & Hmin).
  exists j, q'. split_and!; [done..|].
  rewrite Hperm in Hnd. simpl in Hnd. apply NoDup_cons in Hnd as [Hnot _].
  rewrite Forall_forall in Hmin. apply Forall_forall. intros y Hy.
  apply le_job_before; [|by apply Hmin].
  intros Heq. apply Hnot. rewrite Heq. by apply list_elem_of_fmap_2.
Qed.

(** A clock reading later than every queued timestamp gives a fresh key. *)
Lemma later_fresh_key item q :
  Forall (λ y, Job.created_at y < Job.created_at item) q → fresh_key item q.
Proof.
  intros Hlater. eapply Forall_impl; [exact Hlater|].
  intros y Hlt [= _ Heq _]. simpl in Hlt. lia.
Qed.

End QueueOrder.

(** ** Resolution of futures *)

Definition is_resolution (future : nat) (ev : Event) : bool :=
  match ev with
  | EvSetResult f _ | EvSetException f _ => (f =? future)%nat
  | _ => false
  end.

(** How many times [future] was given an outcome according to the log. *)
Fixpoint resolutions (future : nat) (l : list Event) : nat :=
  match l with
  | [] => 0
  | ev :: l => (if is_resolution future ev then 1 else 0) + resolutions future l
  end.

(** How many times the processor was called according to the log. *)
Fixpoint translate_calls (l : list Event) : nat :=
  match l with
  | [] => 0
  | EvTranslateText _ :: l => S (translate_calls l)
  | _ :: l => translate_calls l
  end.

Definition is_done (f : Future) : bool :=
  match f with Result _ | Exception _ => true | Pending | Cancelled => false end.

Section Resolution.
Variable processor : string → result string.

Lemma resolutions_app f l1 l2 :
  resolutions f (l1 ++ l2) = resolutions f l1 + resolutions f l2.
Proof. induction l1 as [|ev l1 IH]; simpl; [done|]. rewrite IH. lia. Qed.

Lemma translate_calls_app l1 l2 :
  translate_calls (l1 ++ l2) = translate_calls l1 + translate_calls l2.
Proof.
  induction l1 as [|ev l1 IH]; simpl; [done|]. destruct ev; simpl; lia.
Qed.

Lemma job_outcome_done st j t1 t2 :
  is_done (job_outcome processor st j t1 t2) = true.
Proof. unfold job_outcome. by destruct (process_outcome _ _ _). Qed.

Lemma resolutions_resolve_event f f' o :
  is_done o = true →
  resolutions f (resolve_event f' o) = if (f' =? f)%nat then 1 else 0.
Proof. destruct o; simpl; try done; by destruct (f' =? f)%nat. Qed.

(** When [heappop] itself raises, the pass stops there. *)
Lemma worker_body_pop_fails st e q' start_proc end_proc :
  Heapq.heappop tuple_lt (task_queue st) = (Raise e, q') →
  worker_body processor start_proc end_proc st = (Raise e, set_task_queue q' st).
Proof.
  intros Hpop. unfold worker_body, queue_get, on_queue, mbind, M_bind.
  by rewrite Hpop.
Qed.

(** One pass of the worker changes no future that is not pending, and
    records no outcome for it. *)
Lemma worker_iteration_keeps_done st cancel start_proc end_proc f o :
  futures st !! f = Some o → o ≠ Pending →
  let st' := (worker_iteration processor cancel start_proc end_proc st).2 in
  futures st' !! f = Some o ∧ resolutions f (log st') = resolutions f (log st).
Proof.
  intros Hf Ho. unfold worker_iteration.
  destruct cancel; [done|].
  destruct (task_queue st) as [|x q] eqn:Hq; [done|].
  unfold try_except.
  destruct (Heapq.heappop tuple_lt (task_queue st)) as [[j|e] q'] eqn:Hpop.
  - rewrite (worker_body_after_job processor st j q' _ _ Hpop). simpl.
    destruct (decide (Job.future j = f)) as [->|Hne].
    + rewrite Hf.
      destruct o; try done; simpl; rewrite resolutions_app; simpl; split;
        (done || lia).
    + split.
      * destruct (is_pending _); [by rewrite lookup_insert_ne|done].
      * rewrite !resolutions_app. simpl.
        destruct (is_pending _); simpl; [|lia].
        rewrite resolutions_resolve_event by apply job_outcome_done.
        apply Nat.eqb_neq in Hne as ->. lia.
  - by rewrite (worker_body_pop_fails st e q' _ _ Hpop).
Qed.

(** A submission creates a new pending future and touches no other; no
    outcome is recorded. *)
Lemma translate_submit_keeps_futures st req now f o :
  futures st !! f = Some o →
  let st' := (translate_submit req now st).2 in
  futures st' !! f = Some o ∧ resolutions f (log st') = resolutions f (log st).
Proof.
  intros Hf. unfold translate_submit, mbind, M_bind, get.
  destruct (not_loaded st); [done|].
  destruct (_ || _); [done|].
  assert (new_future (futures st) ≠ f) as Hfresh.
  { intros <-. by rewrite new_future_fresh in Hf. }
  destruct st as [m tk q u fs rc lh qh ip lg]. simpl in *.
  unfold create_future, queue_put, on_queue, request_counter_inc, modify,
    get, mbind, M_bind, mret, M_ret. simpl.
  destruct (Heapq.heappush tuple_lt _ q) as [[[]|e] q']; simpl;
    rewrite lookup_insert_ne by done; rewrite !resolutions_app; simpl;
    split; (done || lia).
Qed.

(** Resuming a handler records its latency and touches no future. *)
Lemma translate_resume_keeps_futures st fr now f :
  let st' := (translate_resume fr now st).2 in
  futures st' !! f = futures st !! f ∧
  resolutions f (log st') = resolutions f (log st).
Proof.
  unfold translate_resume.
  destruct (futures st !! Frame.future fr) as [[]|]; simpl; try done.
  rewrite resolutions_app. simpl. split; [done|lia].
Qed.

End Resolution.

(** ** Draining the queue *)

(** The jobs the worker took from the queue, in order. *)
Fixpoint dequeued (l : list Event) : list Job.t :=
  match l with
  | [] => []
  | EvGet j :: l => j :: dequeued l
  | _ :: l => dequeued l
  end.

(** Every queued job waits on a pending future of its own. *)
Definition queue_futures_pending (st : State) : Prop :=
  NoDup (Job.future <$> task_queue st) ∧
  ∀ j, j ∈ task_queue st → futures st !! Job.future j = Some Pending.

Section Drain.
Variable processor : string → result string.

Lemma dequeued_app l1 l2 : dequeued (l1 ++ l2) = dequeued l1 ++ dequeued l2.
Proof.
  induction l1 as [|ev l1 IH]; simpl; [done|]. destruct ev; simpl; by rewrite ?IH.
Qed.

Lemma dequeued_resolve_event f o : dequeued (resolve_event f o) = [].
Proof. by destruct o. Qed.

Lemma after_job_dequeued st j q' t1 t2 :
  dequeued (log (after_job processor st j q' t1 t2)) = dequeued (log st) ++ [j].
Proof.
  rewrite after_job_log, !dequeued_app. simpl.
  destruct (is_pending _); by rewrite ?dequeued_resolve_event.
Qed.

Lemma after_job_resolutions st j q' t1 t2 f :
  resolutions f (log (after_job processor st j q' t1 t2)) =
    resolutions f (log st) +
    (if is_pending (futures st !! Job.future j) && (Job.future j =? f)%nat
     then 1 else 0).
Proof.
  rewrite after_job_log, !resolutions_app. simpl.
  destruct (is_pending _); simpl; [|done].
  by rewrite resolutions_resolve_event by apply job_outcome_done.
Qed.

Lemma worker_loop_keeps_done clock : ∀ st f o,
  futures st !! f = Some o → o ≠ Pending →
  let st' := (worker_loop processor clock st).2 in
  futures st' !! f = Some o ∧ resolutions f (log st') = resolutions f (log st).
Proof.
  induction clock as [|[t1 t2] clock IH]; intros st f o Hf Ho;
    cbn [worker_loop]; [done|].
  destruct (worker_iteration_keeps_done processor st false t1 t2 f o Hf Ho)
    as [Hf1 Hres1].
  destruct (worker_iteration processor false t1 t2 st) as [c st1].
  cbn [snd] in Hf1, Hres1.
  destruct c; cbn [snd]; [|done..].
  destruct (IH st1 f o Hf1 Ho) as [Hf2 Hres2]. by rewrite Hres2.
Qed.

(** With one clock reading per queued job, the worker empties the queue:
    it takes the jobs in key order and resolves the future of each
    exactly once. *)
Lemma worker_drain clock : ∀ st,
  length clock = length (task_queue st) →
  queue_inv (task_queue st) →
  queue_futures_pending st →
  ∃ st' out,
    worker_loop processor clock st = (Continue, st') ∧
    task_queue st' = [] ∧
    dequeued (log st') = dequeued (log st) ++ out ∧
    out ≡ₚ task_queue st ∧
    StronglySorted (Heapq.le key_ltb) out ∧
    ∀ j, j ∈ task_queue st →
      (∃ o, futures st' !! Job.future j = Some o ∧ is_done o = true) ∧
      resolutions (Job.future j) (log st') =
        resolutions (Job.future j) (log st) + 1.
Proof.
  induction clock as [|[t1 t2] clock IH]; intros st Hlen Hinv [Hnd Hpend].
  { symmetry in Hlen. apply nil_length_inv in Hlen.
    exists st, []. rewrite Hlen, app_nil_r.
    split_and!; try done; [constructor|].
    intros j Hj. by apply elem_of_nil in Hj. }
  destruct (queue_get_ok _ Hinv) as (j & q' & Hpop & Hinv' & Hperm & Hmin).
  { intros Hnil. by rewrite Hnil in Hlen. }
  set (st1 := after_job processor st j q' t1 t2).
  assert (NoDup (Job.future j :: (Job.future <$> q'))) as Hnd'.
  { by rewrite Hperm in Hnd. }
  apply NoDup_cons in Hnd' as [Hj_fresh Hnd'].
  assert (futures st !! Job.future j = Some Pending) as Hj_pending.
  { apply Hpend. rewrite Hperm. by left. }
  destruct (IH st1) as (st' & out & Hloop & Hempty & Hdeq & Hout & Hsorted & Hall).
  { unfold st1. rewrite after_job_task_queue.
    apply Permutation_length in Hperm. simpl in *. lia. }
  { by unfold st1; rewrite after_job_task_queue. }
  { unfold st1. split; rewrite after_job_task_queue; [done|].
    intros x Hx. rewrite after_job_futures, Hj_pending. simpl.
    rewrite lookup_insert_ne.
    - apply Hpend. rewrite Hperm. by right.
    - intros Heq. apply Hj_fresh. rewrite Heq. by apply list_elem_of_fmap_2. }
  exists st', (j :: out). split_and!.
  - cbn [worker_loop].
    by rewrite (worker_iteration_after_job processor st j q' _ _ Hpop).
  - done.
  - rewrite Hdeq. unfold st1. rewrite after_job_dequeued, <-app_assoc. done.
  - rewrite Hperm. f_equiv. unfold st1 in Hout.
    by rewrite after_job_task_queue in Hout.
  - constructor; [done|]. unfold st1 in Hout.
    rewrite after_job_task_queue in Hout. by rewrite Hout.
  - intros x Hx. rewrite Hperm in Hx.
    apply elem_of_cons in Hx as [->|Hx].
    + assert (futures st1 !! Job.future j =
                Some (job_outcome processor st j t1 t2)) as Hdone.
      { unfold st1. rewrite after_job_futures, Hj_pending. simpl.
        by rewrite lookup_insert_eq. }
      pose proof (job_outcome_done processor st j t1 t2) as Hisdone.
      destruct (worker_loop_keeps_done clock st1 _ _ Hdone) as [Hkeep Hres].
      { intros Heq. by rewrite Heq in Hisdone. }
      rewrite Hloop in Hkeep, Hres. cbn [snd] in Hkeep, Hres. split; [eauto|].
      rewrite Hres. unfold st1.
      rewrite after_job_resolutions, Hj_pending, Nat.eqb_refl. done.
    + destruct (Hall x) as [Hdone Hres].
      { by unfold st1; rewrite after_job_task_queue. }
      split; [done|]. rewrite Hres. unfold st1.
      rewrite after_job_resolutions, Hj_pending. simpl.
      assert (Job.future j ≠ Job.future x) as Hne.
      { intros Heq. apply Hj_fresh. rewrite Heq. by apply list_elem_of_fmap_2. }
      apply Nat.eqb_neq in Hne as ->. lia.
Qed.

End Drain.

(** ** Submissions followed by the worker *)

(** A series of submissions, each with the clock reading it sees. *)
Fixpoint submit_all (reqs : list (TranslateRequest.t * Z)) (st : State)
  : State :=
  match reqs with
  | [] => st
  | (req, now) :: reqs => submit_all reqs (translate_submit req now st).2
  end.

(** The key of the job built for a request submitted at [now]. *)
Definition key_of (rn : TranslateRequest.t * Z) : Z * Z * string :=
  (TranslateRequest.priority rn.1, rn.2, TranslateRequest.text rn.1).

Section EndToEnd.
Variable processor : string → result string.
Local Open Scope Z_scope.

Lemma after_submit_not_loaded st req now q' :
  not_loaded (after_submit st req now q') = not_loaded st.
Proof. done. Qed.

Lemma submit_step st req now :
  not_loaded st = false → in_range req →
  queue_inv (task_queue st) → queue_futures_pending st →
  Forall (λ y, Job.created_at y < now) (task_queue st) →
  ∃ q',
    translate_submit req now st =
      (Ok (frame_of st req now), after_submit st req now q') ∧
    q' ≡ₚ job_of st req now :: task_queue st ∧
    queue_inv q' ∧
    queue_futures_pending (after_submit st req now q').
Proof.
  intros Hloaded Hrange Hinv [Hnd Hpend] Hlater.
  destruct (queue_put_ok (task_queue st) (job_of st req now) Hinv)
    as (q' & Hpush & Hinv' & Hperm).
  { by apply later_fresh_key. }
  exists q'. split_and!; [by apply translate_submit_accepted|done..|].
  split; simpl.
  - rewrite Hperm. simpl. apply NoDup_cons. split; [|done].
    intros (y & Hy & Hin)%list_elem_of_fmap.
    specialize (Hpend y Hin). rewrite <-Hy in Hpend.
    by rewrite new_future_fresh in Hpend.
  - intros x Hx. rewrite Hperm in Hx.
    apply elem_of_cons in Hx as [->|Hx]; simpl.
    + by rewrite lookup_insert_eq.
    + rewrite lookup_insert_ne; [by apply Hpend|].
      intros Heq. specialize (Hpend x Hx). rewrite <-Heq in Hpend.
      by rewrite new_future_fresh in Hpend.
Qed.

Lemma submit_all_inv reqs : ∀ st,
  not_loaded st = false →
  Forall (in_range ∘ fst) reqs →
  StronglySorted Z.lt (snd <$> reqs) →
  Forall (λ now, Forall (λ y, Job.created_at y < now) (task_queue st))
    (snd <$> reqs) →
  queue_inv (task_queue st) → queue_futures_pending st →
  let st' := submit_all reqs st in
  not_loaded st' = false ∧
  queue_inv (task_queue st') ∧
  queue_futures_pending st' ∧
  Job.key <$> task_queue st' ≡ₚ (key_of <$> reqs) ++ (Job.key <$> task_queue st) ∧
  (∀ f, resolutions f (log st') = resolutions f (log st)) ∧
  dequeued (log st') = dequeued (log st).
Proof.
  induction reqs as [|[req now] reqs IH];
    intros st Hloaded Hrange Hsorted Hlater Hinv Hpend; simpl.
  { done. }
  apply Forall_cons in Hrange as [Hreq Hrange].
  apply StronglySorted_inv in Hsorted as [Hsorted Hnow].
  apply Forall_cons in Hlater as [Hlater_now Hlater].
  destruct (submit_step st req now Hloaded Hreq Hinv Hpend Hlater_now)
    as (q' & Hrun & Hperm & Hinv' & Hpend').
  rewrite Hrun. cbn [snd].
  destruct (IH (after_submit st req now q')) as (H1 & H2 & H3 & H4 & H5 & H6);
    try done.
  { cbn [after_submit task_queue].
    rewrite Forall_forall in Hnow, Hlater. apply Forall_forall.
    intros t Ht. rewrite Hperm. apply Forall_cons. split.
    - simpl. by apply Hnow.
    - by apply Hlater. }
  split_and!; try done.
  - rewrite H4. cbn [after_submit task_queue]. rewrite Hperm. simpl.
    by rewrite Permutation_middle.
  - intros f. rewrite H5. cbn [after_submit log].
    rewrite resolutions_app. simpl. lia.
  - rewrite H6. cbn [after_submit log]. rewrite dequeued_app. simpl.
    by rewrite app_nil_r.
Qed.

(** X17. From start-up with the model loaded: after any series of valid
    submissions at strictly increasing clock readings, a worker given one
    pass per job takes the jobs in the order of [job_before], every
    submitted job once, and resolves the future of each exactly once. *)
Theorem submissions_served_in_order reqs clock :
  Forall (in_range ∘ fst) reqs →
  StronglySorted Z.lt (snd <$> reqs) →
  length clock = length reqs →
  let st1 := submit_all reqs (startup true) in
  ∃ st2,
    worker_loop processor clock st1 = (Continue, st2) ∧
    task_queue st2 = [] ∧
    Job.key <$> dequeued (log st2) ≡ₚ key_of <$> reqs ∧
    StronglySorted job_before (dequeued (log st2)) ∧
    ∀ j, j ∈ dequeued (log st2) →
      (∃ o, futures st2 !! Job.future j = Some o ∧ is_done o = true) ∧
      resolutions (Job.future j) (log st2) = 1%nat.
Proof.
  intros Hrange Hsorted Hlen st1.
  destruct (submit_all_inv reqs (startup true))
    as (Hloaded & Hinv & Hpend & Hkeys & Hres & Hdeq); try done.
  { apply Forall_forall. intros t _. constructor. }
  { apply queue_inv_nil. }
  { split; [constructor|]. intros j Hj. by apply elem_of_nil in Hj. }
  fold st1 in Hloaded, Hinv, Hpend, Hkeys, Hres, Hdeq.
  simpl in Hkeys, Hres, Hdeq. rewrite app_nil_r in Hkeys.
  destruct (worker_drain processor clock st1)
    as (st2 & out & Hloop & Hempty & Hout & Hperm & Hsort & Hall); try done.
  { rewrite Hlen. apply Permutation_length in Hkeys.
    by rewrite !length_fmap in Hkeys. }
  rewrite Hdeq in Hout. simpl in Hout.
  exists st2. rewrite Hout. split_and!; try done.
  - by rewrite Hperm.
  - apply sorted_job_before; [|done].
    assert (Job.created_at <$> out ≡ₚ snd <$> reqs) as ->.
    { rewrite Hperm.
      change (Job.created_at <$> task_queue st1)
        with ((snd ∘ fst ∘ Job.key) <$> task_queue st1).
      rewrite (list_fmap_compose Job.key), Hkeys, <-list_fmap_compose.
      by rewrite (list_fmap_ext (snd ∘ fst ∘ key_of) snd reqs). }
    clear -Hsorted. induction Hsorted as [|t l Hl IH Ht]; constructor; [|done].
    rewrite Forall_forall in Ht. intros Hin. specialize (Ht t Hin). lia.
  - intros j Hj. rewrite Hperm in Hj. destruct (Hall j Hj) as [Hdone Hone].
    split; [done|]. by rewrite Hone, Hres.
Qed.

End EndToEnd.

(** ** Observations used by the properties *)

(** *** Order of effects in the log *)





(** A processor for the scenarios: "hello" translates to "bonjour", any
    other text makes the processor raise. *)
Definition demo_processor (text : string) : result string :=
  if String.eqb text "hello" then Ok "bonjour"
  else Raise (ProcessorError "translation failed").

(** The in-flight metric after a pass: the increment is recorded, the
    decrement raises [AttributeError] because [IN_PROGRESS] is a
    [Counter], and [task_done] is not reached. *)
Lemma in_progress_after_pass processor st j q' start_proc end_proc :
  Heapq.heappop tuple_lt (task_queue st) = (Ok j, q') →
  let st' := (worker_iteration processor false start_proc end_proc st).2 in
  let label := str_int (Job.priority j) in
  value_of (IN_PROGRESS st') label = (value_of (IN_PROGRESS st) label + 1)%Z ∧
  unfinished_tasks st' = unfinished_tasks st ∧
  (worker_body processor start_proc end_proc st).1 =
    Raise (AttributeError "'Counter' object has no attribute 'dec'").
Proof.
  intros Hpop.
  rewrite (worker_iteration_after_job processor st j q' _ _ Hpop).
  rewrite (worker_body_after_job processor st j q' _ _ Hpop). simpl.
  split_and!; [|done..].
  unfold value_of at 1. by rewrite lookup_insert_eq.
Qed.

Lemma translate_submit_Ok_inv st req now fr st1 :
  translate_submit req now st = (Ok fr, st1) →
  fr = frame_of st req now ∧ not_loaded st = false ∧ in_range req.
Proof.
  unfold translate_submit, mbind, M_bind, get.
  destruct (not_loaded st); [done|].
  destruct (_ || _) eqn:Htest; [done|].
  rewrite Z.gtb_ltb in Htest.
  apply orb_false_elim in Htest as [H1 H2].
  apply Z.ltb_ge in H1. apply Z.ltb_ge in H2.
  destruct st as [m tk q u fs rc lh qh ip lg]. simpl.
  unfold create_future, queue_put, on_queue, request_counter_inc, modify,
    get, mbind, M_bind, mret, M_ret. simpl.
  destruct (Heapq.heappush tuple_lt _ q) as [[[]|e] q']; simpl; [|done].
  intros [= <- <-]. done.
Qed.

(** ** Properties of the specification *)

(** C1. For every sequence of enqueues with priorities in [0,3] and
    strictly increasing enqueue timestamps, putting the jobs and then
    getting as many times succeeds, returns every job once, and returns
    them sorted by priority, lowest number first, and by earliest
    timestamp within one priority.  In particular priorities 3, 0, 2, 0
    come out as the first 0, the second 0, the 2, the 3. *)
Theorem C1_dequeue_by_priority_then_fifo (jobs : list Job.t) :
  Forall (λ j, (MIN_PRIORITY ≤ Job.priority j ≤ MAX_PRIORITY)%Z) jobs →
  increasing_timestamps jobs →
  ∃ q out,
    Heapq.push_all tuple_lt jobs [] = (Ok tt, q) ∧
    Heapq.pop_n tuple_lt (length jobs) q = (Ok out, []) ∧
    out ≡ₚ jobs ∧
    StronglySorted job_before out ∧
    (∀ j1 j2 j3 j4,
       jobs = [j1; j2; j3; j4] →
       Job.priority <$> jobs = [3; 0; 2; 0]%Z →
       out = [j2; j4; j3; j1]).
Proof.
  intros _ Hinc.
  destruct (drain_sorted jobs (increasing_comparable jobs Hinc))
    as (q & out & Hpush & Hpop & Hperm & Hsorted).
  assert (StronglySorted job_before out) as Hout.
  { apply sorted_job_before; [|done].
    rewrite Hperm. by apply increasing_NoDup. }
  exists q, out. split_and!; [done..|].
  intros j1 j2 j3 j4 -> [= Hp1 Hp2 Hp3 Hp4].
  apply (StronglySorted_unique_strong job_before).
  - intros x y _ _ Hxy Hyx. destruct (job_before_asym _ _ Hxy Hyx).
  - done.
  - unfold increasing_timestamps in Hinc.
    repeat match goal with
           | H : StronglySorted _ (_ :: _) |- _ =>
               apply StronglySorted_inv in H as [? ?]
           | H : Forall _ (_ :: _) |- _ => apply Forall_cons in H as [? ?]
           end.
    repeat first [apply SSorted_nil | apply SSorted_cons
                 | apply Forall_nil_2 | apply Forall_cons_2];
      unfold job_before; lia.
  - rewrite Hperm, (Permutation_cons_append _ j1). simpl.
    do 1 f_equiv. apply Permutation_swap.
Qed.

(** An instance of C1: the scenario of the specification with concrete
    jobs. *)
Lemma C1_witness :
  let j1 := Job.mk 3 10 "low" 0 in
  let j2 := Job.mk 0 11 "first critical" 1 in
  let j3 := Job.mk 2 12 "normal" 2 in
  let j4 := Job.mk 0 13 "second critical" 3 in
  ∃ q, Heapq.push_all tuple_lt [j1; j2; j3; j4] [] = (Ok tt, q) ∧
       Heapq.pop_n tuple_lt 4 q = (Ok [j2; j4; j3; j1], []).
Proof.
  intros j1 j2 j3 j4.
  destruct (C1_dequeue_by_priority_then_fifo [j1; j2; j3; j4])
    as (q & out & Hpush & Hpop & _ & _ & Hscenario).
  - repeat constructor; unfold MIN_PRIORITY, MAX_PRIORITY; simpl; lia.
  - unfold increasing_timestamps. repeat constructor; simpl; lia.
  - exists q. split; [done|].
    by rewrite <-(Hscenario j1 j2 j3 j4 eq_refl eq_refl).
Defined.

(** C10. Two jobs with equal priority and identical enqueue timestamps
    are compared by their texts: whatever the order in which they (and
    any other comparable jobs) were submitted, the one with the smaller
    text is dequeued first. *)
Theorem C10_equal_timestamps_ordered_by_text (jobs : list Job.t) (a b : Job.t) :
  comparable jobs → a ∈ jobs → b ∈ jobs →
  Job.priority a = Job.priority b →
  Job.created_at a = Job.created_at b →
  Job.text a ≠ Job.text b →
  tuple_lt a b = Ok (String.ltb (Job.text a) (Job.text b)) ∧
  ∃ q out,
    Heapq.push_all tuple_lt jobs [] = (Ok tt, q) ∧
    Heapq.pop_n tuple_lt (length jobs) q = (Ok out, []) ∧
    out ≡ₚ jobs ∧
    if String.ltb (Job.text a) (Job.text b)
    then precedes a b out else precedes b a out.
Proof.
  intros Hcmp Ha Hb Hp Ht Hs.
  assert (String.eqb (Job.text a) (Job.text b) = false) as Hne
    by by apply String.eqb_neq.
  assert (a ≠ b) as Hab by by intros ->.
  assert (key_ltb a b = String.ltb (Job.text a) (Job.text b)) as Hkab.
  { unfold key_ltb. by rewrite Hp, Ht, !Z.eqb_refl. }
  assert (key_ltb b a = String.ltb (Job.text b) (Job.text a)) as Hkba.
  { unfold key_ltb. by rewrite Hp, Ht, !Z.eqb_refl. }
  split.
  { unfold tuple_lt. by rewrite Hp, Ht, !Z.eqb_refl, Hne. }
  destruct (drain_sorted jobs Hcmp) as (q & out & Hpush & Hpop & Hperm & Hsorted).
  exists q, out. split_and!; [done..|].
  destruct (String.ltb (Job.text a) (Job.text b)) eqn:Hlt.
  - apply (sorted_precedes (Heapq.le key_ltb)); rewrite ?Hperm; try done.
    unfold Heapq.le. by rewrite Hkab.
  - apply (sorted_precedes (Heapq.le key_ltb)); rewrite ?Hperm; try done.
    unfold Heapq.le. rewrite Hkba, (string_eqb_neq_total _ _ Hne Hlt). done.
Qed.

(** An instance of C10: "zebra" is submitted first, "apple" second, with
    the same priority and timestamp; "apple" is dequeued first. *)
Lemma C10_witness :
  let zebra := Job.mk 1 100 "zebra" 0 in
  let apple := Job.mk 1 100 "apple" 1 in
  ∃ q out,
    Heapq.push_all tuple_lt [zebra; apple] [] = (Ok tt, q) ∧
    Heapq.pop_n tuple_lt 2 q = (Ok out, []) ∧
    precedes apple zebra out.
Proof.
  intros zebra apple.
  destruct (C10_equal_timestamps_ordered_by_text [zebra; apple] apple zebra)
    as (_ & q & out & Hpush & Hpop & _ & Horder); try done.
  - intros x y Hx Hy. rewrite !elem_of_cons, elem_of_nil in Hx, Hy.
    destruct Hx as [->|[->|[]]], Hy as [->|[->|[]]];
      (by left) || (by right).
  - apply elem_of_cons. right. by left.
  - by left.
  - by exists q, out.
Defined.

(** C8. While the model is not loaded every submission is rejected at
    once with status 500; the state is untouched, so no future is
    created and nothing is enqueued. *)
Theorem C8_unavailable_rejected_synchronously st req now :
  not_loaded st = true →
  translate_submit req now st =
    (Raise (HTTPException 500 "Model not loaded"), st).
Proof.
  intros Hnot. unfold translate_submit, mbind, M_bind, get. by rewrite Hnot.
Qed.

Lemma C8_witness :
  translate_submit (TranslateRequest.mk "hello" 2) 100 (startup false) =
    (Raise (HTTPException 500 "Model not loaded"), startup false).
Proof. apply C8_unavailable_rejected_synchronously. reflexivity. Defined.

(** C9. The availability check comes before the validation of the
    priority: a request with an out-of-range priority still gets status
    500 "Model not loaded" while the model is not loaded, and a status
    400 can only come out of a state where the model is loaded. *)
Theorem C9_availability_checked_before_priority st req now :
  not_loaded st = true → ¬ in_range req →
  (translate_submit req now st).1 =
    Raise (HTTPException 500 "Model not loaded") ∧
  ∀ st0 req0 now0 detail st1,
    translate_submit req0 now0 st0 = (Raise (HTTPException 400 detail), st1) →
    not_loaded st0 = false.
Proof.
  intros Hnot _. split.
  - unfold translate_submit, mbind, M_bind, get. by rewrite Hnot.
  - intros st0 req0 now0 detail st1 H400.
    destruct (not_loaded st0) eqn:Hst0; [|done].
    unfold translate_submit, mbind, M_bind, get in H400.
    by rewrite Hst0 in H400.
Qed.

Lemma C9_witness :
  (translate_submit (TranslateRequest.mk "hello" 9) 100 (startup false)).1 =
    Raise (HTTPException 500 "Model not loaded").
Proof.
  apply (C9_availability_checked_before_priority (startup false)
           (TranslateRequest.mk "hello" 9) 100).
  - reflexivity.
  - unfold in_range, MIN_PRIORITY, MAX_PRIORITY. simpl. lia.
Defined.

(** C4 as stated fails: with the model not loaded, priority 9 is answered
    with status 500, not 400. *)
Lemma C4_counterexample :
  let req := TranslateRequest.mk "hello" 9 in
  ¬ in_range req ∧
  ∀ detail st',
    translate_submit req 100 (startup false) ≠
      (Raise (HTTPException 400 detail), st').
Proof.
  split.
  - unfold in_range, MIN_PRIORITY, MAX_PRIORITY. simpl. lia.
  - intros detail st'. by vm_compute.
Qed.

(** C4, amended. A submission whose priority is outside [0,3] is always
    rejected and leaves the state untouched (nothing enqueued, no metric
    changed); the status is 400 when the model is loaded and 500
    otherwise. *)
Theorem C4_out_of_range_rejected st req now :
  ¬ in_range req →
  translate_submit req now st =
    (Raise (if not_loaded st
            then HTTPException 500 "Model not loaded"
            else HTTPException 400 "priority must be between 0 and 3"),
     st).
Proof.
  intros Hout. unfold translate_submit, mbind, M_bind, get.
  destruct (not_loaded st); [done|].
  by rewrite (out_of_range_test _ Hout).
Qed.

Lemma C4_witness :
  let st := startup true in
  translate_submit (TranslateRequest.mk "hello" 9) 100 st =
    (Raise (HTTPException 400 "priority must be between 0 and 3"), st) ∧
  qsize st = 0 ∧ REQUEST_COUNTER st = ∅.
Proof.
  split; [|done].
  apply (C4_out_of_range_rejected (startup true)
           (TranslateRequest.mk "hello" 9) 100).
  unfold in_range, MIN_PRIORITY, MAX_PRIORITY. simpl. lia.
Defined.




(** C2 as stated fails: a job whose future was cancelled while it waited
    in the queue is dequeued and processed, but its future is resolved
    zero times. *)
Lemma C2_counterexample :
  let st1 := (translate_submit (TranslateRequest.mk "hello" 1) 100
                (startup true)).2 in
  let st2 := future_cancel 0 st1 in
  let st3 := (worker_iteration demo_processor false 105 107 st2).2 in
  task_queue st1 = [Job.mk 1 100 "hello" 0] ∧
  task_queue st3 = [] ∧
  translate_calls (log st3) = 1 ∧
  futures st3 !! 0 = Some Cancelled ∧
  resolutions 0 (log st3) = 0.
Proof. by vm_compute. Qed.

(** C2, amended. For every submitted job that the worker dequeues while
    its future is still pending, the worker resolves the future exactly
    once, with the success result or with the processor's exception.  A
    future that is no longer pending (resolved, or cancelled by its
    waiting caller) is never written again: not by a later pass of the
    worker, not by a submission, not by a resuming handler; the worker
    is the only writer. *)
Theorem C2_resolved_once_by_worker processor st j q' start_proc end_proc :
  Heapq.heappop tuple_lt (task_queue st) = (Ok j, q') →
  futures st !! Job.future j = Some Pending →
  let st' := (worker_iteration processor false start_proc end_proc st).2 in
  let outcome := job_outcome processor st j start_proc end_proc in
  futures st' !! Job.future j = Some outcome ∧
  is_done outcome = true ∧
  resolutions (Job.future j) (log st') =
    resolutions (Job.future j) (log st) + 1 ∧
  ∀ st2 f o,
    futures st2 !! f = Some o → o ≠ Pending →
    (∀ cancel t1 t2,
       let st3 := (worker_iteration processor cancel t1 t2 st2).2 in
       futures st3 !! f = Some o ∧
       resolutions f (log st3) = resolutions f (log st2)) ∧
    (∀ req now,
       let st3 := (translate_submit req now st2).2 in
       futures st3 !! f = Some o ∧
       resolutions f (log st3) = resolutions f (log st2)) ∧
    (∀ fr now,
       let st3 := (translate_resume fr now st2).2 in
       futures st3 !! f = Some o ∧
       resolutions f (log st3) = resolutions f (log st2)).
Proof.
  intros Hpop Hpending.
  rewrite (worker_iteration_after_job processor st j q' _ _ Hpop). simpl.
  rewrite Hpending. simpl. split_and!.
  - by rewrite lookup_insert_eq.
  - apply job_outcome_done.
  - rewrite !resolutions_app. simpl.
    rewrite resolutions_resolve_event by apply job_outcome_done.
    rewrite Nat.eqb_refl. lia.
  - intros st2 f o Hf Ho. split_and!.
    + intros. by apply worker_iteration_keeps_done.
    + intros. by apply translate_submit_keeps_futures.
    + intros fr now.
      destruct (translate_resume_keeps_futures st2 fr now f) as [-> ->].
      done.
Qed.

Lemma C2_witness :
  let st1 := (translate_submit (TranslateRequest.mk "hello" 1) 100
                (startup true)).2 in
  let j := Job.mk 1 100 "hello" 0 in
  let st2 := (worker_iteration demo_processor false 105 107 st1).2 in
  futures st2 !! Job.future j =
    Some (job_outcome demo_processor st1 j 105 107) ∧
  resolutions (Job.future j) (log st2) =
    resolutions (Job.future j) (log st1) + 1.
Proof.
  intros st1 j st2.
  destruct (C2_resolved_once_by_worker demo_processor st1 j [] 105 107)
    as (Hfut & _ & Hres & _).
  - by vm_compute.
  - by vm_compute.
  - split; assumption.
Defined.




(** C6 at a failing input: one job of priority 1 is submitted and
    processed with success.  The in-flight metric goes from 0 to 1 before
    the processor is called and is still 1 after the pass: no decrement
    is recorded. *)
Theorem C6_in_progress_not_restored :
  let st1 := (translate_submit (TranslateRequest.mk "hello" 1) 100
                (startup true)).2 in
  let st2 := (worker_iteration demo_processor false 105 107 st1).2 in
  value_of (IN_PROGRESS st1) "1" = 0%Z ∧
  value_of (IN_PROGRESS st2) "1" = 1%Z ∧
  (worker_body demo_processor 105 107 st1).1 =
    Raise (AttributeError "'Counter' object has no attribute 'dec'") ∧
  drop (length (log st1)) (log st2) =
    [EvGet (Job.mk 1 100 "hello" 0); EvQueueTimeObserve "1" 5;
     EvInProgressInc "1"; EvTranslateText "hello";
     EvSetResult 0 (TranslateResponse.mk "hello" "bonjour" 1 2 5 true)].
Proof. by vm_compute. Qed.

(** C7 as stated fails: when the clock shows the same reading before and
    after the processor runs, the job succeeds and the response has a
    processing time of 0, which is not strictly greater than 0. *)
Lemma C7_counterexample :
  ∃ fr st1 r,
    translate_submit (TranslateRequest.mk "hello" 1) 100 (startup true) =
      (Ok fr, st1) ∧
    demo_processor "hello" = Ok "bonjour" ∧
    (translate_resume fr 110
       (worker_iteration demo_processor false 105 105 st1).2).1 = Returned r ∧
    TranslateResponse.translated_text r = "bonjour" ∧
    ¬ (0 < TranslateResponse.processing_time r)%Z.
Proof.
  eexists _, _, _. split_and!; [by vm_compute..|]. vm_compute. done.
Qed.

(** C7, amended. For every submission that the processor handles with
    success, the caller's response carries the original text, the
    translated text, the submitted priority and [model_loaded = true];
    its processing time is the difference of the two clock readings
    taken around the processor call and its queued time is the reading
    at dequeue minus the reading at submission.  The processing time is
    positive when the clock has advanced during processing and the
    queued time is non-negative when the clock has not gone back since
    the submission. *)
Theorem C7_success_response processor st req now fr st1 st2 q'
    start_proc end_proc later translated :
  translate_submit req now st = (Ok fr, st1) →
  Heapq.heappop tuple_lt (task_queue st2) =
    (Ok (Job.mk (TranslateRequest.priority req) now
           (TranslateRequest.text req) (Frame.future fr)), q') →
  futures st2 !! Frame.future fr = Some Pending →
  process_outcome processor st2 (TranslateRequest.text req) = Ok translated →
  let st3 := (worker_iteration processor false start_proc end_proc st2).2 in
  ∃ r st4,
    translate_resume fr later st3 = (Returned r, st4) ∧
    TranslateResponse.original_text r = TranslateRequest.text req ∧
    TranslateResponse.translated_text r = translated ∧
    TranslateResponse.priority r = TranslateRequest.priority req ∧
    TranslateResponse.model_loaded r = true ∧
    TranslateResponse.processing_time r = (end_proc - start_proc)%Z ∧
    TranslateResponse.queued_time r = (start_proc - now)%Z ∧
    ((start_proc < end_proc)%Z → (0 < TranslateResponse.processing_time r)%Z) ∧
    ((now ≤ start_proc)%Z → (0 ≤ TranslateResponse.queued_time r)%Z) ∧
    observations (LATENCY_HISTOGRAM st4)
      (str_int (TranslateRequest.priority req)) =
      observations (LATENCY_HISTOGRAM st3)
        (str_int (TranslateRequest.priority req)) ++ [(later - now)%Z].
Proof.
  intros Hsubmit Hpop Hpending Hok.
  apply translate_submit_Ok_inv in Hsubmit as (-> & _ & _).
  rewrite (worker_iteration_after_job processor st2 _ q' _ _ Hpop).
  unfold translate_resume, after_job, job_outcome. simpl in *.
  rewrite Hpending, Hok. simpl. rewrite lookup_insert_eq.
  eexists _, _. split_and!; try done; simpl; try lia.
  unfold observations at 1. by rewrite lookup_insert_eq.
Qed.

(** An instance of C7: priority 1, payload "hello", the processor returns
    "bonjour". *)
Lemma C7_witness :
  let '(fr, st1) :=
    translate_submit (TranslateRequest.mk "hello" 1) 100 (startup true) in
  let st2 := (worker_iteration demo_processor false 105 107 st1).2 in
  match fr with
  | Ok fr =>
      ∃ r, (translate_resume fr 110 st2).1 = Returned r ∧
           TranslateResponse.translated_text r = "bonjour" ∧
           TranslateResponse.priority r = 1%Z ∧
           (0 < TranslateResponse.processing_time r)%Z ∧
           (0 ≤ TranslateResponse.queued_time r)%Z
  | Raise _ => False
  end.
Proof.
  destruct (translate_submit (TranslateRequest.mk "hello" 1) 100 (startup true))
    as [[fr|e] st1] eqn:Hsubmit; [|by vm_compute in Hsubmit].
  destruct (C7_success_response demo_processor (startup true)
              (TranslateRequest.mk "hello" 1) 100 fr st1 st1 [] 105 107 110
              "bonjour" Hsubmit)
    as (r & st4 & Hresume & _ & Htr & Hprio & _ & _ & _ & Hproc & Hq & _).
  - by injection Hsubmit as <- <-.
  - by injection Hsubmit as <- <-.
  - by injection Hsubmit as <- <-.
  - exists r. rewrite Hresume. split_and!; [done..| |].
    + by apply Hproc.
    + by apply Hq.
Defined.

(** *** A submission whose key is already queued *)

(** Two submissions with the same priority, clock reading and text: the
    tuple comparison reaches the two futures and [put] raises
    [TypeError] after the item was appended; the submission counter is
    not incremented for the second request. *)
Example duplicate_key_submission :
  let req := TranslateRequest.mk "hello" 1 in
  let st1 := (translate_submit req 100 (startup true)).2 in
  let '(r, st2) := translate_submit req 100 st1 in
  r = Raise (TypeError
        "'<' not supported between instances of 'Future' and 'Future'") ∧
  qsize st1 = 1%nat ∧ qsize st2 = 2%nat ∧
  value_of (REQUEST_COUNTER st1) "1" = 1%Z ∧
  value_of (REQUEST_COUNTER st2) "1" = 1%Z.
Proof. by vm_compute. Qed.

(** * Further properties of the service *)

(** ** Heap operations never invent entries *)

(** Whatever the comparison does, also when it raises half-way, every
    entry of the list after a heap operation was in the list before (or
    is the pushed item), and a popped item was in the list. *)
Section Closed.
Context {A : Type} (lt : A → A → result bool) (P : A → Prop).

(** [m] keeps [P] on the entries of the list and returns a [Q]. *)
Definition closed {B} (Q : B → Prop) (m : M (list A) B) : Prop :=
  ∀ h, Forall P h → Forall P (m h).2 ∧ ∀ b, (m h).1 = Ok b → Q b.

Lemma closed_bind {B C} (Q : B → Prop) (R : C → Prop) m (k : B → M (list A) C) :
  closed Q m → (∀ b, Q b → closed R (k b)) → closed R (m ≫= k).
Proof.
  intros Hm Hk h Hh. unfold mbind, M_bind.
  destruct (Hm h Hh) as [Hh1 Hq].
  destruct (m h) as [[b|e] h1]; simpl in *; [|by split].
  by apply Hk; [apply Hq|].
Qed.

Lemma closed_getitem i : closed P (Heapq.getitem i).
Proof.
  intros h Hh. unfold Heapq.getitem.
  destruct (h !! i) as [x|] eqn:Hx; simpl; split; try done.
  intros b [= <-]. by eapply Forall_lookup_1.
Qed.

Lemma closed_setitem i x : P x → closed (λ _, True) (Heapq.setitem i x).
Proof.
  intros Hx h Hh. unfold Heapq.setitem.
  destruct (decide _); simpl; split; try done. by apply Forall_insert.
Qed.

Lemma closed_lift {B} (r : result B) : closed (λ _, True) (lift r).
Proof. by intros h Hh. Qed.

Lemma closed_mret {B} (Q : B → Prop) (b : B) : Q b → closed Q (mret b).
Proof. intros Hb h Hh. split; [done|]. by intros ? [= <-]. Qed.

Lemma closed_get : closed (Forall P) get.
Proof. intros h Hh. split; [done|]. by intros ? [= <-]. Qed.

Lemma closed_siftdown_loop newitem startpos pos :
  P newitem → closed (λ _, True) (Heapq.siftdown_loop lt newitem startpos pos).
Proof.
  intros Hnew. induction pos as [pos IH] using lt_wf_ind.
  rewrite Heapq.siftdown_loop_eq.
  destruct (startpos <? pos)%nat eqn:Hgt; [|by apply closed_setitem].
  apply Nat.ltb_lt in Hgt.
  eapply closed_bind; [apply closed_getitem|]. intros parent Hparent.
  eapply closed_bind; [apply closed_lift|]. intros [] _.
  - eapply closed_bind; [by apply closed_setitem|]. intros _ _.
    apply IH, Heapq.parent_of_lt. lia.
  - by apply closed_setitem.
Qed.

Lemma closed_siftdown startpos pos :
  closed (λ _, True) (Heapq._siftdown lt startpos pos).
Proof.
  eapply closed_bind; [apply closed_getitem|]. intros newitem Hnew.
  by apply closed_siftdown_loop.
Qed.

Lemma closed_siftup_loop endpos n : ∀ pos,
  n = endpos - pos →
  closed (λ _, True) (Heapq.siftup_loop lt endpos pos).
Proof.
  induction n as [n IH] using lt_wf_ind. intros pos ->.
  rewrite Heapq.siftup_loop_eq.
  destruct (2 * pos + 1 <? endpos)%nat eqn:Hleft; [|by apply closed_mret].
  apply Nat.ltb_lt in Hleft.
  destruct (2 * pos + 1 + 1 <? endpos)%nat eqn:Hright.
  - apply Nat.ltb_lt in Hright.
    eapply closed_bind; [apply closed_getitem|]. intros l Hl.
    eapply closed_bind; [apply closed_getitem|]. intros r Hr.
    eapply closed_bind; [apply closed_lift|]. intros [] _.
    + eapply closed_bind; [by apply closed_setitem|]. intros _ _.
      eapply IH; [|reflexivity]. lia.
    + eapply closed_bind; [by apply closed_setitem|]. intros _ _.
      eapply IH; [|reflexivity]. lia.
  - eapply closed_bind; [apply closed_getitem|]. intros l Hl.
    eapply closed_bind; [by apply closed_setitem|]. intros _ _.
    eapply IH; [|reflexivity]. lia.
Qed.

Lemma closed_siftup pos : closed (λ _, True) (Heapq._siftup lt pos).
Proof.
  eapply closed_bind; [apply closed_get|]. intros heap _.
  eapply closed_bind; [apply closed_getitem|]. intros newitem Hnew.
  eapply closed_bind; [by eapply closed_siftup_loop|]. intros pos' _.
  eapply closed_bind; [by apply closed_setitem|]. intros _ _.
  apply closed_siftdown.
Qed.

Lemma closed_heappush item : P item → closed (λ _, True) (Heapq.heappush lt item).
Proof.
  intros Hitem.
  eapply (closed_bind (λ _, True)).
  { intros h Hh. split; [|done]. simpl. apply Forall_app.
    by split; [|apply Forall_singleton]. }
  intros _ _. eapply closed_bind; [apply closed_get|]. intros heap _.
  apply closed_siftdown.
Qed.

Lemma closed_list_pop : closed P Heapq.list_pop.
Proof.
  intros h Hh. unfold Heapq.list_pop.
  destruct (last h) as [x|] eqn:Hlast; simpl; split; try done.
  - by apply Forall_take.
  - intros b [= <-]. apply last_Some in Hlast as [h' ->].
    apply Forall_app in Hh as [_ Hx]. by eapply Forall_inv.
Qed.

Lemma closed_heappop : closed P (Heapq.heappop lt).
Proof.
  eapply closed_bind; [apply closed_list_pop|]. intros lastelt Hlast.
  eapply closed_bind; [apply closed_get|]. intros [|x heap] _;
    [by apply closed_mret|].
  eapply closed_bind; [apply closed_getitem|]. intros returnitem Hret.
  eapply closed_bind; [by apply closed_setitem|]. intros _ _.
  eapply closed_bind; [apply closed_siftup|]. intros _ _.
  by apply closed_mret.
Qed.

End Closed.

(** ** The application: start-up, shutdown, health *)

(** [worker_task]: [None], a running task, or a task that has ended. *)
Inductive WorkerTask : Type := NoTask | Running | Finished.

(** The globals of [State] together with [device] and [worker_task]. *)
Record App : Type := mkApp {
  globals : State;
  device : string;
  worker_task : WorkerTask }.

Definition set_model (m : option unit) (st : State) : State :=
  mkState m (tokenizer st) (task_queue st) (unfinished_tasks st) (futures st)
    (REQUEST_COUNTER st) (LATENCY_HISTOGRAM st) (QUEUE_TIME_HISTOGRAM st)
    (IN_PROGRESS st) (log st).
Definition set_tokenizer (t : option unit) (st : State) : State :=
  mkState (model st) t (task_queue st) (unfinished_tasks st) (futures st)
    (REQUEST_COUNTER st) (LATENCY_HISTOGRAM st) (QUEUE_TIME_HISTOGRAM st)
    (IN_PROGRESS st) (log st).

Definition on_globals (f : State → State) (app : App) : App :=
  mkApp (f (globals app)) (device app) (worker_task app).
Definition set_device (d : string) (app : App) : App :=
  mkApp (globals app) d (worker_task app).
Definition set_worker_task (w : WorkerTask) (app : App) : App :=
  mkApp (globals app) (device app) w.

(** The module right after import: [model = None], [tokenizer = None],
    [device = "cpu"], [worker_task = None], an empty queue. *)
Definition imported : App := mkApp (startup false) "cpu" NoTask.

(** What the calls made by [startup_event] do: the two
    [from_pretrained] calls, [torch.cuda.is_available()] and
    [model.to(device)]. *)
Record Loaders : Type := mkLoaders {
  tokenizer_from_pretrained : result unit;
  model_from_pretrained : result unit;
  cuda_is_available : bool;
  model_to : result unit }.

(** [startup_event()] (main.py:177-203) *)
Definition startup_event (ld : Loaders) (app : App) : App :=
  let '(_, app) :=
    try_except
      (t ← lift (tokenizer_from_pretrained ld);
       modify (on_globals (set_tokenizer (Some t)));;
       m ← lift (model_from_pretrained ld);
       modify (on_globals (set_model (Some m)));;
       modify (set_device (if cuda_is_available ld then "cuda" else "cpu"));;
       lift (model_to ld))
      (λ e,
       modify (on_globals (set_model None));;
       modify (on_globals (set_tokenizer None)))
      app in
  set_worker_task Running app.

(** The answer of [GET /health] (main.py:224-230). *)
Module Health.
Record t : Type := mk {
  status : string;
  model_loaded : bool;
  device : string;
  queue_size : nat }.
End Health.

(** [health()] *)
Definition health (app : App) : Health.t :=
  Health.mk "healthy"
    (match model (globals app) with Some _ => true | None => false end)
    (device app)
    (qsize (globals app)).

(** What can happen to the running application: a request arrives and
    runs up to [await future]; a suspended handler is resumed; the worker
    makes one pass; the task of a waiting caller is cancelled, which
    cancels the future it awaits; the application shuts down. *)
Inductive Action : Type :=
  | ASubmit (req : TranslateRequest.t) (now : Z)
  | AResume (fr : Frame.t) (now : Z)
  | AWorkerPass (start_proc end_proc : Z)
  | ACallerCancelled (future : nat)
  | AShutdown.

Section Application.
Variable processor : string → result string.

(** One pass of the worker task, if it is still running; the task ends
    when the loop breaks. *)
Definition worker_step (cancel : bool) (start_proc end_proc : Z) (app : App)
  : App :=
  match worker_task app with
  | Running =>
      let '(ctl, st) :=
        worker_iteration processor cancel start_proc end_proc (globals app) in
      mkApp st (device app)
        (match ctl with Break => Finished | Continue | Suspend => Running end)
  | NoTask | Finished => app
  end.

(** [shutdown_event()] (main.py:207-216): the worker task, suspended in
    [task_queue.get()], is cancelled and awaited. *)
Definition shutdown_event (app : App) : App := worker_step true 0 0 app.

Definition app_act (a : Action) (app : App) : App :=
  match a with
  | ASubmit req now => on_globals (λ st, (translate_submit req now st).2) app
  | AResume fr now => on_globals (λ st, (translate_resume fr now st).2) app
  | AWorkerPass start_proc end_proc => worker_step false start_proc end_proc app
  | ACallerCancelled future => on_globals (future_cancel future) app
  | AShutdown => shutdown_event app
  end.

Fixpoint app_run (acts : list Action) (app : App) : App :=
  match acts with
  | [] => app
  | a :: acts => app_run acts (app_act a app)
  end.

End Application.

(** A start-up in which everything loads, on a machine without CUDA. *)
Definition demo_loaders : Loaders := mkLoaders (Ok tt) (Ok tt) false (Ok tt).

(** ** The transitions of the globals *)

(** The state after a submission whose [put] raised: the future was
    created and the heap list is as [heappush] left it. *)
Definition after_failed_put (st : State) (q' : list Job.t) : State :=
  mkState (model st) (tokenizer st) q' (unfinished_tasks st)
    (<[new_future (futures st) := Pending]> (futures st))
    (REQUEST_COUNTER st) (LATENCY_HISTOGRAM st) (QUEUE_TIME_HISTOGRAM st)
    (IN_PROGRESS st)
    (log st ++ [EvCreateFuture (new_future (futures st))]).

(** The state after a handler has recorded its latency. *)
Definition after_latency (st : State) (label : string) (v : Z) : State :=
  mkState (model st) (tokenizer st) (task_queue st) (unfinished_tasks st)
    (futures st) (REQUEST_COUNTER st)
    (<[label := observations (LATENCY_HISTOGRAM st) label ++ [v]]>
       (LATENCY_HISTOGRAM st))
    (QUEUE_TIME_HISTOGRAM st) (IN_PROGRESS st)
    (log st ++ [EvLatencyObserve label v]).

Section Transitions.
Variable processor : string → result string.

(** What the handlers and the environment can do to the globals. *)
Inductive hstep : State → State → Prop :=
  | hs_accepted st req now q' :
      not_loaded st = false → in_range req →
      Heapq.heappush tuple_lt (job_of st req now) (task_queue st) = (Ok tt, q') →
      hstep st (after_submit st req now q')
  | hs_put_failed st req now e q' :
      not_loaded st = false → in_range req →
      Heapq.heappush tuple_lt (job_of st req now) (task_queue st) = (Raise e, q') →
      hstep st (after_failed_put st q')
  | hs_latency st fr now r :
      futures st !! Frame.future fr = Some (Result r) →
      hstep st (after_latency st (Frame.priority_label fr)
                  (now - Frame.start_total fr))
  | hs_cancelled st f :
      futures st !! f = Some Pending →
      hstep st (set_futures (<[f := Cancelled]> (futures st)) st).

(** What a pass of the worker can do to the globals. *)
Inductive wstep : State → State → Prop :=
  | ws_job st j q' start_proc end_proc :
      Heapq.heappop tuple_lt (task_queue st) = (Ok j, q') →
      wstep st (after_job processor st j q' start_proc end_proc)
  | ws_get_failed st e q' :
      Heapq.heappop tuple_lt (task_queue st) = (Raise e, q') →
      wstep st (set_task_queue q' st).

Lemma translate_submit_put_failed st req now e q' :
  not_loaded st = false → in_range req →
  Heapq.heappush tuple_lt (job_of st req now) (task_queue st) = (Raise e, q') →
  translate_submit req now st = (Raise e, after_failed_put st q').
Proof.
  intros Hloaded Hrange Hpush.
  unfold translate_submit, mbind, M_bind, get. rewrite Hloaded.
  rewrite (in_range_test _ Hrange).
  destruct st as [m tk q u fs rc lh qh ip lg]. simpl in *.
  unfold create_future, queue_put, on_queue, request_counter_inc, modify,
    get, mbind, M_bind, mret, M_ret. simpl.
  unfold job_of in Hpush. simpl in Hpush. rewrite Hpush. simpl.
  unfold after_failed_put. by norm_state.
Qed.

Lemma translate_submit_rejected st req now :
  not_loaded st = true ∨ ¬ in_range req →
  (translate_submit req now st).2 = st.
Proof.
  intros Hrej. unfold translate_submit, mbind, M_bind, get.
  destruct (not_loaded st); [done|].
  destruct Hrej as [|Hout]; [done|]. by rewrite (out_of_range_test _ Hout).
Qed.

Lemma in_range_dec req : in_range req ∨ ¬ in_range req.
Proof. unfold in_range. lia. Qed.

Lemma translate_submit_cases st req now :
  (translate_submit req now st).2 = st ∨
  (not_loaded st = false ∧ in_range req ∧
   ((∃ q', Heapq.heappush tuple_lt (job_of st req now) (task_queue st) = (Ok tt, q') ∧
           translate_submit req now st =
             (Ok (frame_of st req now), after_submit st req now q')) ∨
    (∃ e q', Heapq.heappush tuple_lt (job_of st req now) (task_queue st) = (Raise e, q') ∧
             translate_submit req now st = (Raise e, after_failed_put st q')))).
Proof.
  destruct (not_loaded st) eqn:Hloaded.
  { left. apply translate_submit_rejected. by left. }
  destruct (in_range_dec req) as [Hrange|Hout].
  2: { left. apply translate_submit_rejected. by right. }
  right. split_and!; [done..|].
  destruct (Heapq.heappush tuple_lt (job_of st req now) (task_queue st))
    as [[[]|e] q'] eqn:Hpush.
  - left. exists q'. split; [done|]. by apply translate_submit_accepted.
  - right. exists e, q'. split; [done|]. by apply translate_submit_put_failed.
Qed.

Lemma translate_resume_cases st fr now :
  (translate_resume fr now st).2 = st ∨
  ∃ r, futures st !! Frame.future fr = Some (Result r) ∧
       translate_resume fr now st =
         (Returned r, after_latency st (Frame.priority_label fr)
                        (now - Frame.start_total fr)).
Proof.
  unfold translate_resume.
  destruct (futures st !! Frame.future fr) as [[| |r|e]|]; try by left.
  right. by exists r.
Qed.

Lemma worker_iteration_cases st start_proc end_proc :
  (task_queue st = [] ∧
   worker_iteration processor false start_proc end_proc st = (Suspend, st)) ∨
  (∃ j q', task_queue st ≠ [] ∧
     Heapq.heappop tuple_lt (task_queue st) = (Ok j, q') ∧
     worker_iteration processor false start_proc end_proc st =
       (Continue, after_job processor st j q' start_proc end_proc)) ∨
  (∃ e q', task_queue st ≠ [] ∧
     Heapq.heappop tuple_lt (task_queue st) = (Raise e, q') ∧
     worker_iteration processor false start_proc end_proc st =
       (Continue, set_task_queue q' st)).
Proof.
  destruct (task_queue st) as [|x q] eqn:Hq.
  { left. split; [done|]. unfold worker_iteration. by rewrite Hq. }
  right.
  destruct (Heapq.heappop tuple_lt (x :: q)) as [[j|e] q'] eqn:Hpop.
  - left. exists j, q'. split_and!; [done..|].
    apply worker_iteration_after_job. by rewrite Hq.
  - right. exists e, q'. split_and!; [done..|].
    unfold worker_iteration, try_except. rewrite Hq.
    rewrite <-Hq in Hpop. by rewrite (worker_body_pop_fails _ _ _ _ _ _ Hpop).
Qed.

(** Every action leaves the globals alone, or changes them by a handler
    step, or, while the worker task is running, by a worker step. *)
Lemma app_act_step a app :
  globals (app_act processor a app) = globals app ∨
  hstep (globals app) (globals (app_act processor a app)) ∨
  (worker_task app = Running ∧
   wstep (globals app) (globals (app_act processor a app))).
Proof.
  destruct a as [req now|fr now|t1 t2|f|]; simpl.
  - destruct (translate_submit_cases (globals app) req now)
      as [->|(Hl & Hr & [(q' & Hpush & ->)|(e & q' & Hpush & ->)])];
      [by left|right; left..].
    + by apply hs_accepted.
    + by eapply hs_put_failed.
  - destruct (translate_resume_cases (globals app) fr now)
      as [->|(r & Hr & ->)]; [by left|right; left].
    by eapply hs_latency.
  - unfold worker_step. destruct (worker_task app) eqn:Hw; [by left| |by left].
    destruct (worker_iteration_cases (globals app) t1 t2)
      as [[_ ->]|[(j & q' & _ & Hpop & ->)|(e & q' & _ & Hpop & ->)]]; simpl;
      [by left|right; right; split; [done|]..].
    + by apply ws_job.
    + by eapply ws_get_failed.
  - unfold future_cancel.
    destruct (futures (globals app) !! f) as [[| |r|e]|] eqn:Hf; try by left.
    right; left. by apply hs_cancelled.
  - unfold shutdown_event, worker_step.
    by destruct (worker_task app); left.
Qed.

(** A task that is not running never runs again. *)
Lemma app_act_worker_task a app :
  worker_task app ≠ Running →
  worker_task (app_act processor a app) = worker_task app.
Proof.
  intros Hw. destruct app as [g d [| |]]; try done;
    by destruct a.
Qed.

(** An invariant of the actions holds along every run. *)
Lemma app_run_inv (Inv : App → Prop) :
  (∀ a app, Inv app → Inv (app_act processor a app)) →
  ∀ acts app, Inv app → Inv (app_run processor acts app).
Proof.
  intros Hstep acts. induction acts as [|a acts IH]; intros app Happ; simpl;
    [done|]. by apply IH, Hstep.
Qed.

End Transitions.

(** ** Observations on runs of the application *)

Definition is_ok {A} (r : result A) : bool :=
  match r with Ok _ => true | Raise _ => false end.

(** Whether every call made by [startup_event] succeeds. *)
Definition load_ok (ld : Loaders) : bool :=
  is_ok (tokenizer_from_pretrained ld) && is_ok (model_from_pretrained ld)
  && is_ok (model_to ld).

(** Whether the start-up got as far as choosing the device. *)
Definition device_chosen (ld : Loaders) : bool :=
  is_ok (tokenizer_from_pretrained ld) && is_ok (model_from_pretrained ld).

Definition is_shutdown (a : Action) : bool :=
  match a with AShutdown => true | _ => false end.

(** The clock reading of a submission. *)
Definition act_time (a : Action) : option Z :=
  match a with ASubmit _ now => Some now | _ => None end.

Definition submit_times (acts : list Action) : list Z := omap act_time acts.

(** The jobs the handlers put into the queue, in order. *)
Fixpoint enqueued (l : list Event) : list Job.t :=
  match l with
  | [] => []
  | EvPut j :: l => j :: enqueued l
  | _ :: l => enqueued l
  end.

(** How many of [jobs] carry the metric label [label]. *)
Definition with_label (label : string) (jobs : list Job.t) : nat :=
  length (filter (λ j, str_int (Job.priority j) = label) jobs).

(** Whether the worker reached the end of its [finally] block. *)
Definition is_finally_event (ev : Event) : bool :=
  match ev with EvInProgressDec _ | EvTaskDone => true | _ => false end.

(** How many outcomes the futures table holds for [f]. *)
Definition resolved (st : State) (f : nat) : nat :=
  match futures st !! f with
  | Some (Result _ | Exception _) => 1
  | _ => 0
  end.

Section Invariants.
Variable processor : string → result string.

Lemma app_run_globals_inv (I : State → Prop) :
  (∀ st st', hstep st st' → I st → I st') →
  (∀ st st', wstep processor st st' → I st → I st') →
  ∀ acts app, I (globals app) → I (globals (app_run processor acts app)).
Proof.
  intros Hh Hw. apply (app_run_inv processor (λ app, I (globals app))).
  intros a app HI.
  destruct (app_act_step processor a app) as [->|[Hs|[_ Hs]]]; eauto.
Qed.

Lemma app_run_app acts1 acts2 app :
  app_run processor (acts1 ++ acts2) app =
    app_run processor acts2 (app_run processor acts1 app).
Proof. revert app. induction acts1 as [|a acts1 IH]; intros app; simpl; eauto. Qed.

(** *** The model and the tokenizer are only set at start-up *)

Lemma hstep_model st st' :
  hstep st st' → model st' = model st ∧ tokenizer st' = tokenizer st.
Proof. by destruct 1. Qed.

Lemma wstep_model st st' :
  wstep processor st st' → model st' = model st ∧ tokenizer st' = tokenizer st.
Proof. by destruct 1. Qed.

Lemma app_run_model acts app :
  model (globals (app_run processor acts app)) = model (globals app) ∧
  tokenizer (globals (app_run processor acts app)) = tokenizer (globals app).
Proof.
  apply (app_run_globals_inv
           (λ st, model st = model (globals app) ∧
                  tokenizer st = tokenizer (globals app))); [| |done].
  - intros st st' [-> ->]%hstep_model. done.
  - intros st st' [-> ->]%wstep_model. done.
Qed.

Lemma startup_event_globals ld app :
  globals (startup_event ld app) =
    let m := if load_ok ld then Some tt else None in
    let g := globals app in
    mkState m m (task_queue g) (unfinished_tasks g) (futures g)
      (REQUEST_COUNTER g) (LATENCY_HISTOGRAM g) (QUEUE_TIME_HISTOGRAM g)
      (IN_PROGRESS g) (log g).
Proof.
  destruct app as [g d w], ld as [[[]|e1] [[]|e2] c [[]|e3]]; reflexivity.
Qed.

Lemma startup_event_imported ld :
  globals (startup_event ld imported) = startup (load_ok ld).
Proof. by rewrite startup_event_globals. Qed.

Lemma not_loaded_startup b : not_loaded (startup b) = negb b.
Proof. by destruct b. Qed.

(** *** The queue only holds jobs whose future exists *)

Lemma heappush_sub item q r q' :
  Heapq.heappush tuple_lt item q = (r, q') →
  Forall (λ j, j = item ∨ j ∈ q) q'.
Proof.
  intros Hpush.
  destruct (closed_heappush tuple_lt (λ j, j = item ∨ j ∈ q) item
              (or_introl eq_refl) q) as [H _].
  { apply Forall_forall. by right. }
  by rewrite Hpush in H.
Qed.

Lemma heappop_sub q r q' :
  Heapq.heappop tuple_lt q = (r, q') →
  Forall (.∈ q) q' ∧ ∀ j, r = Ok j → j ∈ q.
Proof.
  intros Hpop.
  destruct (closed_heappop tuple_lt (.∈ q) q) as [H1 H2].
  { by apply Forall_forall. }
  rewrite Hpop in H1, H2. split; [done|]. intros j ->. by apply H2.
Qed.

Definition futures_exist (st : State) : Prop :=
  ∀ j, j ∈ task_queue st → is_Some (futures st !! Job.future j).

Lemma hstep_futures_exist st st' :
  hstep st st' → futures_exist st → futures_exist st'.
Proof.
  destruct 1 as [st req now q' Hl Hr Hpush|st req now e q' Hl Hr Hpush
                |st fr now r Hf|st f Hf]; intros HG j Hj; simpl in *.
  - apply heappush_sub in Hpush. rewrite Forall_forall in Hpush.
    apply lookup_insert_is_Some'.
    destruct (Hpush j Hj) as [->|Hq]; [by left|right; by apply HG].
  - apply heappush_sub in Hpush. rewrite Forall_forall in Hpush.
    apply lookup_insert_is_Some'.
    destruct (Hpush j Hj) as [->|Hq]; [by left|right; by apply HG].
  - by apply HG.
  - apply lookup_insert_is_Some'. right. by apply HG.
Qed.

Lemma wstep_futures_exist st st' :
  wstep processor st st' → futures_exist st → futures_exist st'.
Proof.
  destruct 1 as [st j q' t1 t2 Hpop|st e q' Hpop]; intros HG x Hx.
  - rewrite after_job_task_queue in Hx. rewrite after_job_futures.
    apply heappop_sub in Hpop as [Hsub _]. rewrite Forall_forall in Hsub.
    destruct (is_pending _); [apply lookup_insert_is_Some'; right|];
      by apply HG, Hsub.
  - simpl in *. apply heappop_sub in Hpop as [Hsub _].
    rewrite Forall_forall in Hsub. by apply HG, Hsub.
Qed.

Lemma app_run_futures_exist acts app :
  futures_exist (globals app) →
  futures_exist (globals (app_run processor acts app)).
Proof.
  apply app_run_globals_inv;
    [apply hstep_futures_exist|apply wstep_futures_exist].
Qed.

Lemma futures_exist_startup b : futures_exist (startup b).
Proof. intros j Hj. by apply elem_of_nil in Hj. Qed.

(** *** Outcomes and the log agree *)

Definition res_inv (st : State) : Prop :=
  ∀ f, resolutions f (log st) = resolved st f.

Lemma hstep_res_inv st st' : hstep st st' → res_inv st → res_inv st'.
Proof.
  destruct 1 as [st req now q' Hl Hr Hpush|st req now e q' Hl Hr Hpush
                |st fr now r Hf|st f0 Hf]; intros HI f; specialize (HI f);
    unfold resolved in *; simpl; rewrite ?resolutions_app; simpl.
  - destruct (decide (f = new_future (futures st))) as [->|Hne].
    + rewrite lookup_insert_eq. rewrite new_future_fresh in HI. lia.
    + rewrite lookup_insert_ne by done. lia.
  - destruct (decide (f = new_future (futures st))) as [->|Hne].
    + rewrite lookup_insert_eq. rewrite new_future_fresh in HI. lia.
    + rewrite lookup_insert_ne by done. lia.
  - lia.
  - destruct (decide (f = f0)) as [->|Hne].
    + rewrite lookup_insert_eq. by rewrite Hf in HI.
    + by rewrite lookup_insert_ne.
Qed.

Lemma wstep_res_inv st st' : wstep processor st st' → res_inv st → res_inv st'.
Proof.
  destruct 1 as [st j q' t1 t2 Hpop|st e q' Hpop]; intros HI f;
    specialize (HI f); unfold resolved in *; [|done].
  rewrite after_job_resolutions, after_job_futures.
  destruct (futures st !! Job.future j) as [[| |r|e]|] eqn:Hj; simpl;
    try (rewrite HI; lia).
  destruct (Nat.eqb_spec (Job.future j) f) as [<-|Hne].
  - rewrite lookup_insert_eq, HI, Hj.
    pose proof (job_outcome_done processor st j t1 t2) as Hdone.
    by destruct (job_outcome processor st j t1 t2).
  - rewrite lookup_insert_ne by done. lia.
Qed.

(** *** Following one job *)

(** What the worker stores for job [j] when the model is loaded. *)
Definition outcome_of (j : Job.t) (t1 t2 : Z) : Future :=
  match processor (Job.text j) with
  | Ok translated =>
      Result (TranslateResponse.mk (Job.text j) translated (Job.priority j)
                (t2 - t1) (t1 - Job.created_at j) true)
  | Raise e => Exception e
  end.

Lemma job_outcome_loaded st j t1 t2 :
  not_loaded st = false →
  job_outcome processor st j t1 t2 = outcome_of j t1 t2.
Proof.
  intros Hl. unfold job_outcome, process_outcome, outcome_of. by rewrite Hl.
Qed.

(** The future [f0] belongs to [job0] alone, and holds nothing but what
    the worker computed for [job0]. *)
Definition tracks (f0 : nat) (job0 : Job.t) (st : State) : Prop :=
  not_loaded st = false ∧
  futures_exist st ∧
  (∀ j, j ∈ task_queue st → Job.future j = f0 → j = job0) ∧
  is_Some (futures st !! f0) ∧
  ∀ o, futures st !! f0 = Some o →
    o = Pending ∨ o = Cancelled ∨ ∃ t1 t2, o = outcome_of job0 t1 t2.

Lemma not_loaded_eq st st' :
  model st' = model st → tokenizer st' = tokenizer st →
  not_loaded st' = not_loaded st.
Proof. unfold not_loaded. by intros -> ->. Qed.

Lemma tracks_new st f0 job0 :
  tracks f0 job0 st → new_future (futures st) ≠ f0.
Proof.
  intros (_ & _ & _ & [o Hf] & _) Heq.
  by rewrite <-Heq, new_future_fresh in Hf.
Qed.

Lemma hstep_tracks f0 job0 st st' :
  hstep st st' → tracks f0 job0 st → tracks f0 job0 st'.
Proof.
  intros Hstep Ht.
  pose proof (tracks_new _ _ _ Ht) as Hnew.
  destruct Ht as (Hl & HG & Hown & Hsome & Hout).
  split_and!.
  - destruct (hstep_model _ _ Hstep) as [Hm Htk].
    by rewrite (not_loaded_eq _ _ Hm Htk).
  - by eapply hstep_futures_exist.
  - destruct Hstep as [st req now q' _ _ Hpush|st req now e q' _ _ Hpush
                      |st fr now r Hf|st f Hf]; simpl; try done.
    + intros j Hj Hfj. apply heappush_sub in Hpush.
      rewrite Forall_forall in Hpush.
      destruct (Hpush j Hj) as [->|Hq]; [done|by apply Hown].
    + intros j Hj Hfj. apply heappush_sub in Hpush.
      rewrite Forall_forall in Hpush.
      destruct (Hpush j Hj) as [->|Hq]; [done|by apply Hown].
  - destruct Hstep; simpl; try done;
      apply lookup_insert_is_Some'; by right.
  - destruct Hstep as [st req now q' _ _ Hpush|st req now e q' _ _ Hpush
                      |st fr now r Hf|st f Hf]; simpl; try done.
    + by rewrite lookup_insert_ne.
    + by rewrite lookup_insert_ne.
    + intros o. destruct (decide (f = f0)) as [->|Hne].
      * rewrite lookup_insert_eq. intros [= <-]. by right; left.
      * rewrite lookup_insert_ne by done. apply Hout.
Qed.

Lemma wstep_tracks f0 job0 st st' :
  wstep processor st st' → tracks f0 job0 st → tracks f0 job0 st'.
Proof.
  intros Hstep (Hl & HG & Hown & Hsome & Hout).
  split_and!.
  - destruct (wstep_model _ _ Hstep) as [Hm Htk].
    by rewrite (not_loaded_eq _ _ Hm Htk).
  - by eapply wstep_futures_exist.
  - destruct Hstep as [st j q' t1 t2 Hpop|st e q' Hpop];
      apply heappop_sub in Hpop as [Hsub _]; rewrite Forall_forall in Hsub;
      intros x Hx; apply Hown, Hsub, Hx.
  - destruct Hstep as [st j q' t1 t2 Hpop|st e q' Hpop]; [|done].
    rewrite after_job_futures.
    destruct (is_pending _); [apply lookup_insert_is_Some'; by right|done].
  - destruct Hstep as [st j q' t1 t2 Hpop|st e q' Hpop]; [|done].
    rewrite after_job_futures. intros o.
    destruct (is_pending _); [|apply Hout].
    destruct (decide (Job.future j = f0)) as [Hjf|Hne].
    + apply heappop_sub in Hpop as [_ Hin].
      assert (j = job0) as -> by (apply Hown; [by apply Hin|done]).
      subst f0. rewrite lookup_insert_eq. intros [= <-]. right; right.
      exists t1, t2. by apply job_outcome_loaded.
    + rewrite lookup_insert_ne by done. apply Hout.
Qed.

Lemma app_run_tracks f0 job0 acts app :
  tracks f0 job0 (globals app) →
  tracks f0 job0 (globals (app_run processor acts app)).
Proof.
  apply app_run_globals_inv; [apply hstep_tracks|apply wstep_tracks].
Qed.

(** An accepted submission starts the tracking of its job. *)
Lemma after_submit_tracks st req now q' :
  not_loaded st = false → in_range req → futures_exist st →
  Heapq.heappush tuple_lt (job_of st req now) (task_queue st) = (Ok tt, q') →
  tracks (new_future (futures st)) (job_of st req now)
    (after_submit st req now q').
Proof.
  intros Hl Hr HG Hpush. split_and!.
  - done.
  - apply (hstep_futures_exist st); [by apply hs_accepted|done].
  - simpl. intros j Hj Hfj. apply heappush_sub in Hpush.
    rewrite Forall_forall in Hpush.
    destruct (Hpush j Hj) as [->|Hq]; [done|].
    destruct (HG j Hq) as [o Ho]. by rewrite Hfj, new_future_fresh in Ho.
  - simpl. rewrite lookup_insert_eq. eauto.
  - simpl. rewrite lookup_insert_eq. intros o [= <-]. by left.
Qed.

(** *** Metrics and the log agree *)

Lemma with_label_app label l1 l2 :
  with_label label (l1 ++ l2) = with_label label l1 + with_label label l2.
Proof. unfold with_label. by rewrite filter_app, length_app. Qed.

Lemma with_label_nil label : with_label label [] = 0.
Proof. done. Qed.

Lemma with_label_singleton label j :
  with_label label [j] =
    if decide (str_int (Job.priority j) = label) then 1 else 0.
Proof.
  unfold with_label. rewrite filter_cons, filter_nil. by destruct (decide _).
Qed.

Lemma enqueued_app l1 l2 : enqueued (l1 ++ l2) = enqueued l1 ++ enqueued l2.
Proof.
  induction l1 as [|ev l1 IH]; simpl; [done|]. destruct ev; simpl; by rewrite ?IH.
Qed.

Lemma enqueued_resolve_event f o : enqueued (resolve_event f o) = [].
Proof. by destruct o. Qed.

Lemma translate_calls_resolve_event f o : translate_calls (resolve_event f o) = 0.
Proof. by destruct o. Qed.

Lemma after_job_enqueued st j q' t1 t2 :
  enqueued (log (after_job processor st j q' t1 t2)) = enqueued (log st).
Proof.
  rewrite after_job_log, !enqueued_app. simpl.
  destruct (is_pending _); by rewrite ?enqueued_resolve_event, app_nil_r.
Qed.

Lemma after_job_translate_calls st j q' t1 t2 :
  translate_calls (log (after_job processor st j q' t1 t2)) =
    S (translate_calls (log st)).
Proof.
  rewrite after_job_log, !translate_calls_app. simpl.
  destruct (is_pending _); rewrite ?translate_calls_resolve_event; simpl; lia.
Qed.

Lemma value_of_insert (m : gmap string Z) l v label :
  value_of (<[l := v]> m) label = if decide (l = label) then v else value_of m label.
Proof.
  unfold value_of. destruct (decide (l = label)) as [->|Hne].
  - by rewrite lookup_insert_eq.
  - by rewrite lookup_insert_ne.
Qed.

Lemma observations_insert (m : gmap string (list Z)) l v label :
  observations (<[l := v]> m) label =
    if decide (l = label) then v else observations m label.
Proof.
  unfold observations. destruct (decide (l = label)) as [->|Hne].
  - by rewrite lookup_insert_eq.
  - by rewrite lookup_insert_ne.
Qed.

(** The three labelled metrics in terms of the log. *)
Definition met_inv (st : State) : Prop :=
  ∀ label,
    value_of (REQUEST_COUNTER st) label =
      Z.of_nat (with_label label (enqueued (log st))) ∧
    value_of (IN_PROGRESS st) label =
      Z.of_nat (with_label label (dequeued (log st))) ∧
    length (observations (QUEUE_TIME_HISTOGRAM st) label) =
      with_label label (dequeued (log st)).

Lemma hstep_met_inv st st' : hstep st st' → met_inv st → met_inv st'.
Proof.
  destruct 1 as [st req now q' Hl Hr Hpush|st req now e q' Hl Hr Hpush
                |st fr now r Hf|st f0 Hf]; intros HI label;
    destruct (HI label) as (H1 & H2 & H3); simpl;
    rewrite ?enqueued_app, ?dequeued_app, ?with_label_app; simpl;
    rewrite ?app_nil_r, ?with_label_nil, ?Nat.add_0_r; try done.
  split_and!; [|done..].
  rewrite value_of_insert, with_label_singleton. simpl.
  destruct (decide _) as [<-|]; lia.
Qed.

Lemma wstep_met_inv st st' : wstep processor st st' → met_inv st → met_inv st'.
Proof.
  destruct 1 as [st j q' t1 t2 Hpop|st e q' Hpop]; intros HI label;
    destruct (HI label) as (H1 & H2 & H3); [|done].
  rewrite after_job_enqueued, after_job_dequeued, with_label_app,
    with_label_singleton.
  simpl. rewrite value_of_insert, observations_insert.
  destruct (decide _) as [<-|]; rewrite ?length_app; simpl; split_and!; lia.
Qed.

(** The worker never reaches the end of its [finally] block; it calls
    the processor once per job it takes. *)
Definition count_inv (st : State) : Prop :=
  unfinished_tasks st = length (enqueued (log st)) ∧
  translate_calls (log st) = length (dequeued (log st)) ∧
  Forall (λ ev, is_finally_event ev = false) (log st).

Lemma resolve_event_not_finally f o :
  Forall (λ ev, is_finally_event ev = false) (resolve_event f o).
Proof. destruct o; repeat constructor. Qed.

Lemma hstep_count_inv st st' : hstep st st' → count_inv st → count_inv st'.
Proof.
  destruct 1 as [st req now q' Hl Hr Hpush|st req now e q' Hl Hr Hpush
                |st fr now r Hf|st f0 Hf]; intros (H1 & H2 & H3);
    unfold count_inv; simpl;
    rewrite ?enqueued_app, ?dequeued_app, ?translate_calls_app, ?length_app;
    simpl; rewrite ?app_nil_r;
    (split_and!; [lia..|]); try done;
    apply Forall_app; split; try done; by repeat constructor.
Qed.

Lemma wstep_count_inv st st' : wstep processor st st' → count_inv st → count_inv st'.
Proof.
  destruct 1 as [st j q' t1 t2 Hpop|st e q' Hpop]; intros (H1 & H2 & H3);
    [|done].
  unfold count_inv.
  rewrite after_job_enqueued, after_job_dequeued, after_job_translate_calls,
    length_app, after_job_log.
  simpl. split_and!; [done|lia|].
  apply Forall_app. split; [done|].
  repeat (apply Forall_cons; split; [done|]).
  destruct (is_pending _); [apply resolve_event_not_finally|constructor].
Qed.

(** *** Submissions at increasing clock readings *)

(** The queue is a heap of comparable jobs with distinct timestamps, all
    earlier than the readings [times] still to come, and it holds what
    was put and not yet taken. *)
Definition sorted_inv (times : list Z) (st : State) : Prop :=
  queue_inv (task_queue st) ∧
  NoDup (Job.created_at <$> task_queue st) ∧
  Forall (λ now, Forall (λ y, (Job.created_at y < now)%Z) (task_queue st))
    times ∧
  length (task_queue st) + length (dequeued (log st)) =
    length (enqueued (log st)).

Lemma sorted_inv_tail now times st :
  sorted_inv (now :: times) st → sorted_inv times st.
Proof.
  intros (H1 & H2 & H3 & H4). split_and!; try done.
  by apply Forall_cons in H3 as [_ ?].
Qed.

Lemma sorted_inv_same times st st' :
  task_queue st' = task_queue st →
  enqueued (log st') = enqueued (log st) →
  dequeued (log st') = dequeued (log st) →
  sorted_inv times st → sorted_inv times st'.
Proof. unfold sorted_inv. by intros -> -> ->. Qed.

Lemma sorted_inv_submit req now times st :
  Forall (Z.lt now) times →
  sorted_inv (now :: times) st →
  sorted_inv times (translate_submit req now st).2.
Proof.
  intros Hnow Hinv.
  destruct (translate_submit_cases st req now)
    as [->|(Hl & Hr & Hcases)]; [by eapply sorted_inv_tail|].
  destruct Hinv as (Hq & Hnd & Hlater & Hlen).
  apply Forall_cons in Hlater as [Hlater_now Hlater].
  destruct (queue_put_ok (task_queue st) (job_of st req now) Hq)
    as (q1 & Hpush1 & Hq1 & Hperm).
  { by apply later_fresh_key. }
  destruct Hcases as [(q' & Hpush & ->)|(e & q' & Hpush & _)];
    [|by rewrite Hpush in Hpush1].
  rewrite Hpush in Hpush1. injection Hpush1 as <-.
  split_and!; simpl.
  - done.
  - rewrite Hperm. simpl. apply NoDup_cons. split; [|done].
    intros (y & Hy & Hin)%list_elem_of_fmap.
    rewrite Forall_forall in Hlater_now. specialize (Hlater_now y Hin). lia.
  - rewrite Forall_forall in Hnow, Hlater. apply Forall_forall.
    intros t Ht. rewrite Hperm. apply Forall_cons. split.
    + simpl. by apply Hnow.
    + by apply Hlater.
  - rewrite enqueued_app, dequeued_app, !length_app. simpl.
    apply Permutation_length in Hperm. simpl in Hperm. lia.
Qed.

Lemma heappop_nonempty q j q' :
  Heapq.heappop tuple_lt q = (Ok j, q') → q ≠ [].
Proof. intros Hpop ->. by rewrite Heapq.heappop_nil in Hpop. Qed.

(** In such a state a pass takes the job that is before all the others. *)
Lemma sorted_inv_pop times st :
  sorted_inv times st → task_queue st ≠ [] →
  ∃ j q', Heapq.heappop tuple_lt (task_queue st) = (Ok j, q') ∧
          task_queue st ≡ₚ j :: q' ∧ Forall (job_before j) q' ∧
          ∀ t1 t2, sorted_inv times (after_job processor st j q' t1 t2).
Proof.
  intros (Hq & Hnd & Hlater & Hlen) Hne.
  destruct (get_returns_first _ Hq Hnd Hne) as (j & q' & Hpop & Hq' & Hperm & Hmin).
  exists j, q'. split_and!; [done..|]. intros t1 t2.
  unfold sorted_inv.
  rewrite after_job_task_queue, after_job_dequeued, after_job_enqueued.
  split_and!.
  - done.
  - rewrite Hperm in Hnd. simpl in Hnd. by apply NoDup_cons in Hnd as [_ ?].
  - eapply Forall_impl; [exact Hlater|]. intros t Ht. simpl in Ht.
    rewrite Hperm in Ht. by apply Forall_cons in Ht as [_ ?].
  - rewrite length_app. apply Permutation_length in Hperm. simpl in *. lia.
Qed.

Lemma sorted_inv_pass t1 t2 times st :
  sorted_inv times st →
  sorted_inv times (worker_iteration processor false t1 t2 st).2.
Proof.
  intros Hinv.
  destruct (worker_iteration_cases processor st t1 t2)
    as [[_ ->]|[(j & q' & Hne & Hpop & ->)|(e & q' & Hne & Hpop & _)]]; [done| |].
  - destruct (sorted_inv_pop times st Hinv Hne) as (j1 & q1 & Hpop1 & _ & _ & Hnext).
    rewrite Hpop in Hpop1. injection Hpop1 as <- <-. apply Hnext.
  - destruct (sorted_inv_pop times st Hinv Hne) as (j1 & q1 & Hpop1 & _).
    by rewrite Hpop in Hpop1.
Qed.

Lemma sorted_inv_act a app times :
  match act_time a with
  | Some now => Forall (Z.lt now) times ∧ sorted_inv (now :: times) (globals app)
  | None => sorted_inv times (globals app)
  end →
  sorted_inv times (globals (app_act processor a app)).
Proof.
  destruct a as [req now|fr now|t1 t2|f|]; simpl.
  - intros [Hnow Hinv]. by apply sorted_inv_submit.
  - intros Hinv.
    destruct (translate_resume_cases (globals app) fr now)
      as [->|(r & Hr & ->)]; [done|].
    eapply sorted_inv_same; [..|exact Hinv]; simpl;
      rewrite ?enqueued_app, ?dequeued_app; simpl; by rewrite ?app_nil_r.
  - intros Hinv. unfold worker_step.
    destruct (worker_task app); [done| |done].
    pose proof (sorted_inv_pass t1 t2 times _ Hinv) as Hpass.
    by destruct (worker_iteration processor false t1 t2 (globals app)).
  - intros Hinv. unfold future_cancel.
    by destruct (futures (globals app) !! f) as [[]|].
  - intros Hinv. unfold shutdown_event, worker_step.
    by destruct (worker_task app).
Qed.

Lemma sorted_run_rest rest acts : ∀ app,
  StronglySorted Z.lt (submit_times acts ++ rest) →
  sorted_inv (submit_times acts ++ rest) (globals app) →
  sorted_inv rest (globals (app_run processor acts app)).
Proof.
  induction acts as [|a acts IH]; intros app Hsorted Hinv; [done|].
  cbn [app_run]. apply IH.
  - unfold submit_times in *. simpl in Hsorted.
    destruct (act_time a); [|done]. by apply StronglySorted_inv in Hsorted as [? _].
  - apply sorted_inv_act. unfold submit_times in *. simpl in Hsorted, Hinv.
    destruct (act_time a); [|done]. split; [|done].
    by apply StronglySorted_inv in Hsorted as [_ ?].
Qed.

Lemma sorted_run acts app :
  StronglySorted Z.lt (submit_times acts) →
  sorted_inv (submit_times acts) (globals app) →
  sorted_inv [] (globals (app_run processor acts app)).
Proof.
  intros Hsorted Hinv. apply sorted_run_rest; by rewrite app_nil_r.
Qed.

Lemma sorted_inv_startup b times : sorted_inv times (startup b).
Proof.
  split_and!; simpl.
  - apply queue_inv_nil.
  - constructor.
  - apply Forall_forall. intros t _. constructor.
  - done.
Qed.

(** *** The worker task *)

Lemma app_act_worker_running a app :
  worker_task app = Running →
  worker_task (app_act processor a app) =
    if is_shutdown a then Finished else Running.
Proof.
  intros Hw. destruct a as [req now|fr now|t1 t2|f|]; simpl; try done.
  - unfold worker_step. rewrite Hw.
    destruct (worker_iteration_cases processor (globals app) t1 t2)
      as [[_ ->]|[(j & q' & _ & _ & ->)|(e & q' & _ & _ & ->)]]; done.
  - unfold shutdown_event, worker_step. by rewrite Hw.
Qed.

Lemma app_run_not_running acts : ∀ app,
  worker_task app ≠ Running →
  worker_task (app_run processor acts app) = worker_task app.
Proof.
  induction acts as [|a acts IH]; intros app Hw; simpl; [done|].
  rewrite IH; rewrite app_act_worker_task; done.
Qed.

(** Without a running worker only the handlers act on the globals. *)
Lemma app_run_handlers_inv (I : State → Prop) :
  (∀ st st', hstep st st' → I st → I st') →
  ∀ acts app, worker_task app ≠ Running →
    I (globals app) → I (globals (app_run processor acts app)).
Proof.
  intros Hh acts. induction acts as [|a acts IH]; intros app Hw HI; simpl;
    [done|].
  apply IH; [by rewrite app_act_worker_task|].
  destruct (app_act_step processor a app) as [->|[Hs|[Hrun _]]]; eauto; done.
Qed.

Lemma app_act_device a app :
  device (app_act processor a app) = device app.
Proof.
  destruct a as [req now|fr now|t1 t2|f|]; simpl; try done;
    unfold shutdown_event, worker_step; destruct (worker_task app); try done;
    by destruct (worker_iteration processor _ _ _ (globals app)).
Qed.

Lemma app_run_device acts app :
  device (app_run processor acts app) = device app.
Proof.
  apply (app_run_inv processor (λ app', device app' = device app)); [|done].
  intros a app' <-. apply app_act_device.
Qed.

(** The states that can follow a failed start-up. *)
Lemma hstep_startup_false st' : hstep (startup false) st' → False.
Proof. inversion 1; simplify_eq; done. Qed.

Lemma wstep_startup_false st' :
  wstep processor (startup false) st' → st' = startup false.
Proof.
  inversion 1 as [st j q' t1 t2 Hpop|st e q' Hpop]; simplify_eq;
    simpl in Hpop; rewrite Heapq.heappop_nil in Hpop; by simplify_eq.
Qed.

(** Every job that was enqueued has a priority within the bounds. *)
Definition enqueued_in_range (st : State) : Prop :=
  Forall (λ j, (MIN_PRIORITY ≤ Job.priority j ≤ MAX_PRIORITY)%Z)
    (enqueued (log st)).

Lemma hstep_enqueued_in_range st st' :
  hstep st st' → enqueued_in_range st → enqueued_in_range st'.
Proof.
  unfold enqueued_in_range.
  destruct 1 as [st req now q' Hl Hr Hpush|st req now e q' Hl Hr Hpush
                |st fr now r Hf|st f0 Hf]; intros HI; simpl;
    rewrite ?enqueued_app; simpl; rewrite ?app_nil_r; try done.
  apply Forall_app. split; [done|]. apply Forall_singleton. exact Hr.
Qed.

Lemma wstep_enqueued_in_range st st' :
  wstep processor st st' → enqueued_in_range st → enqueued_in_range st'.
Proof.
  unfold enqueued_in_range.
  destruct 1 as [st j q' t1 t2 Hpop|st e q' Hpop]; intros HI; [|done].
  by rewrite after_job_enqueued.
Qed.

(** Outcomes only come from the worker. *)
Definition outcomes_within (st0 st : State) : Prop :=
  dequeued (log st) = dequeued (log st0) ∧
  ∀ f o, futures st !! f = Some o → is_done o = true →
         futures st0 !! f = Some o.

Lemma hstep_outcomes_within st0 st st' :
  hstep st st' → outcomes_within st0 st → outcomes_within st0 st'.
Proof.
  intros Hstep [Hd Ho]. split.
  - destruct Hstep; simpl; rewrite ?dequeued_app; simpl;
      by rewrite ?app_nil_r.
  - intros f o.
    destruct Hstep as [st req now q' Hl Hr Hpush|st req now e q' Hl Hr Hpush
                      |st fr now r Hf|st f0 Hf]; simpl; try apply Ho.
    + destruct (decide (f = new_future (futures st))) as [->|Hne].
      * rewrite lookup_insert_eq. by intros [= <-].
      * rewrite lookup_insert_ne by done. apply Ho.
    + destruct (decide (f = new_future (futures st))) as [->|Hne].
      * rewrite lookup_insert_eq. by intros [= <-].
      * rewrite lookup_insert_ne by done. apply Ho.
    + destruct (decide (f = f0)) as [->|Hne].
      * rewrite lookup_insert_eq. by intros [= <-].
      * rewrite lookup_insert_ne by done. apply Ho.
Qed.

End Invariants.

(** ** Properties of start-up, health and shutdown *)

(** X1. [startup_event] leaves the model and the tokenizer both set or
    both [None]: both are set exactly when the two [from_pretrained]
    calls and [model.to(device)] all succeed, and any failure clears
    both.  The device is chosen as soon as both loads succeeded, also
    when moving the model then fails.  The worker task is started in
    every case, and the queue and the futures are left alone. *)
Theorem startup_event_all_or_nothing (ld : Loaders) (app : App) :
  let app' := startup_event ld app in
  let m := if load_ok ld then Some tt else None in
  model (globals app') = m ∧
  tokenizer (globals app') = m ∧
  not_loaded (globals app') = negb (load_ok ld) ∧
  device app' =
    (if device_chosen ld
     then if cuda_is_available ld then "cuda" else "cpu"
     else device app) ∧
  worker_task app' = Running ∧
  task_queue (globals app') = task_queue (globals app) ∧
  futures (globals app') = futures (globals app).
Proof.
  destruct app as [g d w], ld as [[[]|e1] [[]|e2] c [[]|e3]]; done.
Qed.

(** X2. Along every run after start-up, [health] keeps reporting what
    start-up decided: [model_loaded] tells whether everything loaded,
    and the device is the one chosen at start-up (["cuda"] can be
    reported while [model_loaded] is false); the queue size is the
    length of the queue.  [health] looks at the model only and
    [translate] at the model and the tokenizer, yet the two agree:
    submissions pass the availability check exactly when [health] says
    the model is loaded. *)
Theorem health_along_run (processor : string → result string)
    (ld : Loaders) (acts : list Action) :
  let app := app_run processor acts (startup_event ld imported) in
  health app =
    Health.mk "healthy" (load_ok ld)
      (if device_chosen ld
       then if cuda_is_available ld then "cuda" else "cpu"
       else "cpu")
      (length (task_queue (globals app))) ∧
  not_loaded (globals app) = negb (Health.model_loaded (health app)).
Proof.
  intros app. unfold health, not_loaded, qsize.
  destruct (app_run_model processor acts (startup_event ld imported))
    as [Hm Ht].
  fold app in Hm, Ht. rewrite Hm, Ht.
  unfold app at 1. rewrite app_run_device.
  destruct (startup_event_all_or_nothing ld imported)
    as (-> & -> & _ & -> & _).
  by destruct (load_ok ld).
Qed.

(** X3. When loading failed at start-up, nothing ever happens to the
    globals: whatever requests, worker passes, cancellations and
    shutdowns follow, the state stays the initial one, and every
    submission is answered with status 500. *)
Theorem failed_startup_serves_nothing (processor : string → result string)
    (ld : Loaders) (acts : list Action) :
  load_ok ld = false →
  let app := app_run processor acts (startup_event ld imported) in
  globals app = startup false ∧
  ∀ req now,
    translate_submit req now (globals app) =
      (Raise (HTTPException 500 "Model not loaded"), globals app).
Proof.
  intros Hfail app.
  assert (globals app = startup false) as ->.
  { apply (app_run_globals_inv processor (λ st, st = startup false)).
    - intros st st' Hstep ->. by apply hstep_startup_false in Hstep.
    - intros st st' Hstep ->. by eapply wstep_startup_false.
    - by rewrite startup_event_imported, Hfail. }
  done.
Qed.

Lemma failed_startup_serves_nothing_witness :
  let ld := mkLoaders (Ok tt) (Raise (RuntimeError "no weights")) true (Ok tt) in
  let app :=
    app_run demo_processor
      [ASubmit (TranslateRequest.mk "hello" 1) 100; AWorkerPass 105 107]
      (startup_event ld imported) in
  globals app = startup false ∧
  ∀ req now,
    translate_submit req now (globals app) =
      (Raise (HTTPException 500 "Model not loaded"), globals app).
Proof.
  apply (failed_startup_serves_nothing demo_processor
           (mkLoaders (Ok tt) (Raise (RuntimeError "no weights")) true (Ok tt))).
  reflexivity.
Defined.

(** X4. The worker task runs from start-up until the first shutdown and
    never afterwards: no job, no failing processor, no exception inside
    a pass ends it. *)
Theorem worker_task_runs_until_shutdown (processor : string → result string)
    (ld : Loaders) (acts : list Action) :
  worker_task (app_run processor acts (startup_event ld imported)) =
    if existsb is_shutdown acts then Finished else Running.
Proof.
  assert (∀ app, worker_task app = Running →
            worker_task (app_run processor acts app) =
              if existsb is_shutdown acts then Finished else Running) as H.
  { induction acts as [|a acts IH]; intros app Hw; simpl; [done|].
    pose proof (app_act_worker_running processor a app Hw) as Ha.
    destruct (is_shutdown a); simpl.
    - rewrite app_run_not_running; [done|]. by rewrite Ha.
    - by apply IH. }
  apply H. by destruct (startup_event_all_or_nothing ld imported)
    as (_ & _ & _ & _ & ? & _).
Qed.

(** X5. [shutdown_event] ends the worker and leaves the globals as they
    are, queued jobs included.  Whatever happens afterwards, the worker
    task does not run again, no job is taken from the queue, and no
    future gets an outcome: every outcome present later was present at
    shutdown. *)
Theorem nothing_served_after_shutdown (processor : string → result string)
    (app : App) (acts : list Action) :
  let app1 := shutdown_event processor app in
  let app2 := app_run processor acts app1 in
  globals app1 = globals app ∧
  worker_task app2 = worker_task app1 ∧
  worker_task app2 ≠ Running ∧
  dequeued (log (globals app2)) = dequeued (log (globals app)) ∧
  ∀ f o, futures (globals app2) !! f = Some o → is_done o = true →
         futures (globals app) !! f = Some o.
Proof.
  intros app1 app2.
  assert (globals app1 = globals app) as Hg.
  { unfold app1, shutdown_event, worker_step. by destruct (worker_task app). }
  assert (worker_task app1 ≠ Running) as Hw.
  { unfold app1, shutdown_event, worker_step, worker_iteration.
    destruct (worker_task app) eqn:Hw; simpl; by rewrite ?Hw. }
  assert (worker_task app2 = worker_task app1) as Hw2
    by by apply app_run_not_running.
  split_and!; [done|done|by rewrite Hw2|..];
    apply (app_run_handlers_inv processor (outcomes_within (globals app))
             (hstep_outcomes_within (globals app)) acts app1 Hw);
    rewrite Hg; by split.
Qed.

(** ** Properties of the futures *)

(** X6. Along every run, whatever the interleaving of submissions,
    resumed handlers, worker passes, cancellations and shutdowns, a
    future is given an outcome at most once, and the log records one
    for it exactly when the future holds a result or an exception. *)
Theorem future_resolved_at_most_once (processor : string → result string)
    (ld : Loaders) (acts : list Action) (f : nat) :
  let st := globals (app_run processor acts (startup_event ld imported)) in
  resolutions f (log st) = resolved st f ∧ resolutions f (log st) ≤ 1.
Proof.
  intros st.
  assert (res_inv st) as Hinv.
  { apply app_run_globals_inv;
      [apply hstep_res_inv|apply wstep_res_inv|].
    rewrite startup_event_imported. intros f'. unfold resolved. simpl.
    by rewrite lookup_empty. }
  split; [apply Hinv|]. rewrite Hinv. unfold resolved.
  destruct (futures st !! f) as [[]|]; lia.
Qed.

(** X7. A caller only ever receives what the worker computed for its own
    request.  Take any run, a submission that is accepted in it, and any
    continuation of the run.  If the handler then returns a response,
    the response carries the caller's text and priority, the
    processor's translation of that text, and a queued time measured
    from the caller's own submission; if it raises, the processor
    failed on that text and the handler raises status 500 with the
    text of that failure. *)
Theorem caller_receives_own_outcome (processor : string → result string)
    (ld : Loaders) (acts1 acts2 : list Action)
    (req : TranslateRequest.t) (now later : Z) (fr : Frame.t) :
  let app0 := app_run processor acts1 (startup_event ld imported) in
  (translate_submit req now (globals app0)).1 = Ok fr →
  let app1 :=
    app_run processor acts2 (app_act processor (ASubmit req now) app0) in
  match (translate_resume fr later (globals app1)).1 with
  | Returned r =>
      ∃ translated t1 t2,
        processor (TranslateRequest.text req) = Ok translated ∧
        r = TranslateResponse.mk (TranslateRequest.text req) translated
              (TranslateRequest.priority req) (t2 - t1) (t1 - now) true
  | Raised e =>
      ∃ e0, processor (TranslateRequest.text req) = Raise e0 ∧
            e = HTTPException 500 (str_exn e0)
  | StillWaiting | HandlerCancelled => True
  end.
Proof.
  intros app0 Hsub app1.
  set (st := globals app0) in *.
  assert (futures_exist st) as HG.
  { apply app_run_futures_exist. rewrite startup_event_imported.
    apply futures_exist_startup. }
  destruct (translate_submit req now st) as [r st1] eqn:Hrun.
  simpl in Hsub. subst r.
  destruct (translate_submit_Ok_inv _ _ _ _ _ Hrun) as (-> & Hl & Hr).
  destruct (Heapq.heappush tuple_lt (job_of st req now) (task_queue st))
    as [[[]|e] q'] eqn:Hpush.
  2: { by rewrite (translate_submit_put_failed _ _ _ _ _ Hl Hr Hpush) in Hrun. }
  rewrite (translate_submit_accepted _ _ _ _ Hl Hr Hpush) in Hrun.
  injection Hrun as <-.
  assert (tracks processor (new_future (futures st)) (job_of st req now)
            (globals app1)) as (_ & _ & _ & _ & Hout).
  { apply app_run_tracks. simpl. fold st.
    rewrite (translate_submit_accepted _ _ _ _ Hl Hr Hpush).
    by apply after_submit_tracks. }
  unfold translate_resume. simpl.
  destruct (futures (globals app1) !! new_future (futures st))
    as [[| |r|e]|] eqn:Hf; simpl; try done.
  - destruct (Hout _ eq_refl) as [?|[?|(t1 & t2 & Ho)]]; try done.
    unfold outcome_of in Ho. simpl in Ho.
    destruct (processor (TranslateRequest.text req)) as [tr|e]; [|done].
    injection Ho as ->. by exists tr, t1, t2.
  - destruct (Hout _ eq_refl) as [?|[?|(t1 & t2 & Ho)]]; try done.
    unfold outcome_of in Ho. simpl in Ho.
    destruct (processor (TranslateRequest.text req)) as [tr|e0]; [done|].
    injection Ho as ->. by exists e0.
Qed.

(** An instance: another request is submitted and served in between,
    a third one is cancelled. *)
Lemma caller_receives_own_outcome_witness :
  let req := TranslateRequest.mk "hello" 2 in
  let acts1 := [ASubmit (TranslateRequest.mk "bad input" 3) 90] in
  let acts2 :=
    [ASubmit (TranslateRequest.mk "other" 0) 101; AWorkerPass 102 103;
     ACallerCancelled 0; AWorkerPass 105 107; AWorkerPass 108 109] in
  let app0 := app_run demo_processor acts1 (startup_event demo_loaders imported) in
  let app1 :=
    app_run demo_processor acts2 (app_act demo_processor (ASubmit req 100) app0) in
  match (translate_resume (Frame.mk 1 100 "2") 110 (globals app1)).1 with
  | Returned r =>
      ∃ translated t1 t2,
        demo_processor (TranslateRequest.text req) = Ok translated ∧
        r = TranslateResponse.mk (TranslateRequest.text req) translated
              (TranslateRequest.priority req) (t2 - t1) (t1 - 100) true
  | Raised e =>
      ∃ e0, demo_processor (TranslateRequest.text req) = Raise e0 ∧
            e = HTTPException 500 (str_exn e0)
  | StillWaiting | HandlerCancelled => True
  end.
Proof.
  apply (caller_receives_own_outcome demo_processor demo_loaders
           [ASubmit (TranslateRequest.mk "bad input" 3) 90]
           [ASubmit (TranslateRequest.mk "other" 0) 101; AWorkerPass 102 103;
            ACallerCancelled 0; AWorkerPass 105 107; AWorkerPass 108 109]
           (TranslateRequest.mk "hello" 2) 100 110 (Frame.mk 1 100 "2")).
  by vm_compute.
Defined.

(** ** Properties of the metrics *)

(** X8. Along every run the submission counter of a label is the number
    of jobs with that label that were put into the queue: a rejected
    request (status 400 or 500) and a request whose [put] raised are
    not counted.  Every job put into the queue has a priority within
    the bounds, so no other label is ever counted. *)
Theorem request_counter_counts_enqueued (processor : string → result string)
    (ld : Loaders) (acts : list Action) (label : string) :
  let st := globals (app_run processor acts (startup_event ld imported)) in
  value_of (REQUEST_COUNTER st) label =
    Z.of_nat (with_label label (enqueued (log st))) ∧
  Forall (λ j, (MIN_PRIORITY ≤ Job.priority j ≤ MAX_PRIORITY)%Z)
    (enqueued (log st)).
Proof.
  intros st. split.
  - assert (met_inv st) as Hinv; [|apply Hinv].
    apply app_run_globals_inv; [apply hstep_met_inv|apply wstep_met_inv|].
    rewrite startup_event_imported. intros l. by destruct (load_ok ld).
  - apply (app_run_globals_inv processor enqueued_in_range);
      [apply hstep_enqueued_in_range|apply wstep_enqueued_in_range|].
    rewrite startup_event_imported. constructor.
Qed.

(** X9. Along every run the worker calls the processor once for every
    job it takes from the queue, whether the job's future is pending or
    cancelled and whether the processor fails or not; it records one
    queue time per job taken, and the in-flight metric of a label is
    the number of jobs with that label taken so far: it never goes
    down. *)
Theorem worker_counts_dequeued (processor : string → result string)
    (ld : Loaders) (acts : list Action) (label : string) :
  let st := globals (app_run processor acts (startup_event ld imported)) in
  translate_calls (log st) = length (dequeued (log st)) ∧
  length (observations (QUEUE_TIME_HISTOGRAM st) label) =
    with_label label (dequeued (log st)) ∧
  value_of (IN_PROGRESS st) label =
    Z.of_nat (with_label label (dequeued (log st))).
Proof.
  intros st.
  assert (met_inv st) as Hmet.
  { apply app_run_globals_inv; [apply hstep_met_inv|apply wstep_met_inv|].
    rewrite startup_event_imported. intros l. by destruct (load_ok ld). }
  assert (count_inv st) as (_ & Hcalls & _).
  { apply app_run_globals_inv; [apply hstep_count_inv|apply wstep_count_inv|].
    rewrite startup_event_imported. split_and!; [done..|constructor]. }
  destruct (Hmet label) as (_ & Hip & Hqt). done.
Qed.

(** X10. Along every run the worker never gets to the end of its
    [finally] block: no decrement of the in-flight metric and no
    [task_done] is ever recorded, so the queue's count of unfinished
    tasks is the number of jobs ever put into it. *)
Theorem task_done_never_reached (processor : string → result string)
    (ld : Loaders) (acts : list Action) :
  let st := globals (app_run processor acts (startup_event ld imported)) in
  Forall (λ ev, is_finally_event ev = false) (log st) ∧
  unfinished_tasks st = length (enqueued (log st)).
Proof.
  intros st.
  assert (count_inv st) as (Hu & _ & Hlog); [|done].
  apply app_run_globals_inv; [apply hstep_count_inv|apply wstep_count_inv|].
  rewrite startup_event_imported. split_and!; [done..|constructor].
Qed.

(** ** Properties of the queue in a running application *)

(** X11. In every state reached by a run whose submissions read strictly
    increasing clock values, however they interleave with worker
    passes, resumed handlers, cancellations and shutdowns: when the
    queue is not empty, the next pass of the worker succeeds in taking
    a job, and that job is before every job that stays queued (lower
    priority number, then earlier timestamp). *)
Theorem next_pass_serves_most_urgent (processor : string → result string)
    (ld : Loaders) (acts : list Action) (start_proc end_proc : Z) :
  StronglySorted Z.lt (submit_times acts) →
  let st := globals (app_run processor acts (startup_event ld imported)) in
  task_queue st ≠ [] →
  ∃ j q',
    worker_iteration processor false start_proc end_proc st =
      (Continue, after_job processor st j q' start_proc end_proc) ∧
    task_queue st ≡ₚ j :: q' ∧
    Forall (job_before j) q' ∧
    dequeued (log (after_job processor st j q' start_proc end_proc)) =
      dequeued (log st) ++ [j].
Proof.
  intros Hsorted st Hne.
  assert (sorted_inv [] st) as Hinv.
  { apply sorted_run; [done|]. rewrite startup_event_imported.
    apply sorted_inv_startup. }
  destruct (sorted_inv_pop processor [] st Hinv Hne)
    as (j & q' & Hpop & Hperm & Hmin & _).
  exists j, q'. split_and!; [|done..|apply after_job_dequeued].
  by apply worker_iteration_after_job.
Qed.

Lemma next_pass_serves_most_urgent_witness :
  let acts :=
    [ASubmit (TranslateRequest.mk "low" 3) 10;
     ASubmit (TranslateRequest.mk "hello" 0) 11;
     AWorkerPass 12 13;
     ASubmit (TranslateRequest.mk "normal" 2) 14;
     ASubmit (TranslateRequest.mk "late" 2) 15] in
  let st := globals (app_run demo_processor acts
                       (startup_event demo_loaders imported)) in
  ∃ j q',
    worker_iteration demo_processor false 20 21 st =
      (Continue, after_job demo_processor st j q' 20 21) ∧
    task_queue st ≡ₚ j :: q' ∧
    Forall (job_before j) q' ∧
    dequeued (log (after_job demo_processor st j q' 20 21)) =
      dequeued (log st) ++ [j].
Proof.
  apply (next_pass_serves_most_urgent demo_processor demo_loaders
           [ASubmit (TranslateRequest.mk "low" 3) 10;
            ASubmit (TranslateRequest.mk "hello" 0) 11;
            AWorkerPass 12 13;
            ASubmit (TranslateRequest.mk "normal" 2) 14;
            ASubmit (TranslateRequest.mk "late" 2) 15] 20 21).
  - unfold submit_times. simpl.
    repeat first [apply SSorted_nil | apply SSorted_cons
                 | apply Forall_nil_2 | apply Forall_cons_2]; lia.
  - by vm_compute.
Defined.

(** X12. In every state reached by such a run, the queue size that
    [health] reports is the backlog: the number of jobs put into the
    queue minus the number of jobs the worker has taken. *)
Theorem queue_size_is_backlog (processor : string → result string)
    (ld : Loaders) (acts : list Action) :
  StronglySorted Z.lt (submit_times acts) →
  let app := app_run processor acts (startup_event ld imported) in
  Health.queue_size (health app) + length (dequeued (log (globals app))) =
    length (enqueued (log (globals app))).
Proof.
  intros Hsorted app.
  assert (sorted_inv [] (globals app)) as (_ & _ & _ & Hlen); [|done].
  apply sorted_run; [done|]. rewrite startup_event_imported.
  apply sorted_inv_startup.
Qed.

Lemma queue_size_is_backlog_witness :
  let acts :=
    [ASubmit (TranslateRequest.mk "low" 3) 10;
     ASubmit (TranslateRequest.mk "hello" 0) 11;
     AWorkerPass 12 13;
     ASubmit (TranslateRequest.mk "rejected" 7) 14;
     ASubmit (TranslateRequest.mk "late" 2) 15] in
  let app := app_run demo_processor acts (startup_event demo_loaders imported) in
  Health.queue_size (health app) + length (dequeued (log (globals app))) =
    length (enqueued (log (globals app))).
Proof.
  apply (queue_size_is_backlog demo_processor demo_loaders
           [ASubmit (TranslateRequest.mk "low" 3) 10;
            ASubmit (TranslateRequest.mk "hello" 0) 11;
            AWorkerPass 12 13;
            ASubmit (TranslateRequest.mk "rejected" 7) 14;
            ASubmit (TranslateRequest.mk "late" 2) 15]).
  unfold submit_times. simpl.
  repeat first [apply SSorted_nil | apply SSorted_cons
               | apply Forall_nil_2 | apply Forall_cons_2]; lia.
Defined.

(** X13. The availability check of [translate_text] never fires in the
    worker: in every state reached by a run, either the queue is empty
    or the model and the tokenizer are loaded, so what the worker stores
    for a job is what the processor yields for the job's text. *)
Theorem worker_never_finds_model_missing (processor : string → result string)
    (ld : Loaders) (acts : list Action) :
  let st := globals (app_run processor acts (startup_event ld imported)) in
  task_queue st = [] ∨
  (not_loaded st = false ∧
   ∀ text, process_outcome processor st text = processor text).
Proof.
  intros st. destruct (load_ok ld) eqn:Hload.
  - right.
    assert (not_loaded st = false) as Hl.
    { destruct (app_run_model processor acts (startup_event ld imported))
        as [Hm Ht]. unfold not_loaded. fold st in Hm, Ht. rewrite Hm, Ht.
      by rewrite startup_event_imported, Hload. }
    split; [done|]. intros text. unfold process_outcome. by rewrite Hl.
  - left. unfold st.
    assert (globals (app_run processor acts (startup_event ld imported)) =
              startup false) as ->; [|done].
    apply (app_run_globals_inv processor (λ st, st = startup false)).
    + intros st0 st' Hstep ->. by apply hstep_startup_false in Hstep.
    + intros st0 st' Hstep ->. by eapply wstep_startup_false.
    + by rewrite startup_event_imported, Hload.
Qed.

(** X14. A submission whose priority, clock reading and text equal those
    of the queued job that becomes its parent in the heap: the tuple
    comparison reaches the two futures and [put] raises [TypeError].
    The exception leaves [translate]; the future has been created and
    the new job stays at the end of the queue, where the worker will
    find it, but the submission counter is not incremented. *)
Theorem duplicate_key_put_raises (st : State) (req : TranslateRequest.t)
    (now : Z) (p : Job.t) :
  not_loaded st = false → in_range req →
  task_queue st !! Heapq.parent_of (length (task_queue st)) = Some p →
  Job.key p = Job.key (job_of st req now) →
  is_Some (futures st !! Job.future p) →
  ∃ msg,
    translate_submit req now st =
      (Raise (TypeError msg),
       after_failed_put st (task_queue st ++ [job_of st req now])) ∧
    REQUEST_COUNTER (translate_submit req now st).2 = REQUEST_COUNTER st.
Proof.
  intros Hl Hr Hp Hkey [o Ho].
  assert (Job.future (job_of st req now) ≠ Job.future p) as Hne.
  { simpl. intros Heq. by rewrite <-Heq, new_future_fresh in Ho. }
  destruct (tuple_lt_TypeError (job_of st req now) p) as [msg Hlt]; [done..|].
  exists msg.
  assert (Heapq.heappush tuple_lt (job_of st req now) (task_queue st) =
            (Raise (TypeError msg), task_queue st ++ [job_of st req now]))
    as Hpush.
  { set (item := job_of st req now) in *. set (q := task_queue st) in *.
    assert (0 < length q) as Hlen.
    { apply lookup_lt_Some in Hp. lia. }
    unfold Heapq.heappush, Heapq.list_append, Heapq._siftdown, modify, get,
      mbind, M_bind.
    rewrite length_app. simpl. rewrite Nat.add_sub.
    rewrite (Heapq.getitem_Some _ (length q) item).
    2: { rewrite lookup_app_r by lia. by rewrite Nat.sub_diag. }
    rewrite Heapq.siftdown_loop_eq.
    apply Nat.ltb_lt in Hlen as ->.
    unfold mbind, M_bind.
    rewrite (Heapq.getitem_Some _ (Heapq.parent_of (length q)) p).
    2: { by apply lookup_app_l_Some. }
    unfold lift. by rewrite Hlt. }
  rewrite (translate_submit_put_failed _ _ _ _ _ Hl Hr Hpush). done.
Qed.

Lemma duplicate_key_put_raises_witness :
  let req := TranslateRequest.mk "hello" 1 in
  let st := (translate_submit req 100 (startup true)).2 in
  ∃ msg,
    translate_submit req 100 st =
      (Raise (TypeError msg),
       after_failed_put st (task_queue st ++ [job_of st req 100])) ∧
    REQUEST_COUNTER (translate_submit req 100 st).2 = REQUEST_COUNTER st.
Proof.
  apply (duplicate_key_put_raises
           (translate_submit (TranslateRequest.mk "hello" 1) 100 (startup true)).2
           (TranslateRequest.mk "hello" 1) 100 (Job.mk 1 100 "hello" 0)).
  - reflexivity.
  - unfold in_range, MIN_PRIORITY, MAX_PRIORITY. simpl. lia.
  - by vm_compute.
  - by vm_compute.
  - vm_compute. eauto.
Defined.

(** X15. In a run whose submissions read strictly increasing clock
    values, after a start-up that loaded the model, a request with a
    priority within the bounds is always accepted, whatever happened
    before: [put] does not raise, the job joins the queue, and the
    handler waits on a future that did not exist before and is now
    pending. *)
Theorem fresh_timestamp_accepted (processor : string → result string)
    (ld : Loaders) (acts : list Action) (req : TranslateRequest.t) (now : Z) :
  load_ok ld = true → in_range req →
  StronglySorted Z.lt (submit_times (acts ++ [ASubmit req now])) →
  let st := globals (app_run processor acts (startup_event ld imported)) in
  ∃ fr st',
    translate_submit req now st = (Ok fr, st') ∧
    futures st !! Frame.future fr = None ∧
    futures st' !! Frame.future fr = Some Pending ∧
    task_queue st' ≡ₚ
      Job.mk (TranslateRequest.priority req) now (TranslateRequest.text req)
        (Frame.future fr) :: task_queue st.
Proof.
  intros Hload Hr Hsorted st.
  unfold submit_times in Hsorted. rewrite omap_app in Hsorted.
  simpl in Hsorted.
  assert (sorted_inv [now] st) as (Hq & _ & Hlater & _).
  { apply sorted_run_rest; [done|]. rewrite startup_event_imported.
    apply sorted_inv_startup. }
  apply Forall_cons in Hlater as [Hlater _].
  assert (not_loaded st = false) as Hl.
  { destruct (app_run_model processor acts (startup_event ld imported))
      as [Hm Ht]. unfold not_loaded. fold st in Hm, Ht. rewrite Hm, Ht.
    by rewrite startup_event_imported, Hload. }
  destruct (queue_put_ok (task_queue st) (job_of st req now) Hq)
    as (q' & Hpush & _ & Hperm).
  { by apply later_fresh_key. }
  exists (frame_of st req now), (after_submit st req now q').
  split_and!.
  - by apply translate_submit_accepted.
  - apply new_future_fresh.
  - simpl. by rewrite lookup_insert_eq.
  - done.
Qed.

Lemma fresh_timestamp_accepted_witness :
  let acts :=
    [ASubmit (TranslateRequest.mk "low" 3) 10;
     ASubmit (TranslateRequest.mk "hello" 0) 11;
     AWorkerPass 12 13; ACallerCancelled 0] in
  let req := TranslateRequest.mk "low" 3 in
  let st := globals (app_run demo_processor acts
                       (startup_event demo_loaders imported)) in
  ∃ fr st',
    translate_submit req 14 st = (Ok fr, st') ∧
    futures st !! Frame.future fr = None ∧
    futures st' !! Frame.future fr = Some Pending ∧
    task_queue st' ≡ₚ
      Job.mk (TranslateRequest.priority req) 14 (TranslateRequest.text req)
        (Frame.future fr) :: task_queue st.
Proof.
  apply (fresh_timestamp_accepted demo_processor demo_loaders
           [ASubmit (TranslateRequest.mk "low" 3) 10;
            ASubmit (TranslateRequest.mk "hello" 0) 11;
            AWorkerPass 12 13; ACallerCancelled 0]
           (TranslateRequest.mk "low" 3) 14).
  - reflexivity.
  - unfold in_range, MIN_PRIORITY, MAX_PRIORITY. simpl. lia.
  - unfold submit_times. simpl.
    repeat first [apply SSorted_nil | apply SSorted_cons
                 | apply Forall_nil_2 | apply Forall_cons_2]; lia.
Defined.

(** An instance of [submissions_served_in_order]. *)
Lemma submissions_served_in_order_witness :
  let reqs :=
    [(TranslateRequest.mk "low" 3, 10%Z);
     (TranslateRequest.mk "hello" 0, 11%Z);
     (TranslateRequest.mk "normal" 2, 12%Z)] in
  let clock := [(20, 21); (22, 23); (24, 25)]%Z in
  let st1 := submit_all reqs (startup true) in
  ∃ st2,
    worker_loop demo_processor clock st1 = (Continue, st2) ∧
    task_queue st2 = [] ∧
    Job.key <$> dequeued (log st2) ≡ₚ key_of <$> reqs ∧
    StronglySorted job_before (dequeued (log st2)) ∧
    ∀ j, j ∈ dequeued (log st2) →
      (∃ o, futures st2 !! Job.future j = Some o ∧ is_done o = true) ∧
      resolutions (Job.future j) (log st2) = 1.
Proof.
  apply (submissions_served_in_order demo_processor
           [(TranslateRequest.mk "low" 3, 10%Z);
            (TranslateRequest.mk "hello" 0, 11%Z);
            (TranslateRequest.mk "normal" 2, 12%Z)]
           [(20, 21); (22, 23); (24, 25)]%Z).
  - repeat first [apply Forall_nil_2 | apply Forall_cons_2];
      unfold in_range, MIN_PRIORITY, MAX_PRIORITY; simpl; lia.
  - simpl.
    repeat first [apply SSorted_nil | apply SSorted_cons
                 | apply Forall_nil_2 | apply Forall_cons_2]; lia.
  - reflexivity.
Defined.

(** * The download script [models/download_model.py] *)

Module Download.

(** What the four library calls of the script do. *)
Record Calls : Type := mkCalls {
  tokenizer_from_pretrained : result unit;
  model_from_pretrained : result unit;
  tokenizer_save_pretrained : result unit;
  model_save_pretrained : result unit }.

(** The effects of the script, in program order: a printed line, a
    download [cls.from_pretrained(name)], a save
    [obj.save_pretrained(path)] of an object of class [cls]. *)
Inductive Effect : Type :=
  | Print (line : string)
  | FromPretrained (cls name : string)
  | SavePretrained (cls path : string).

Definition print (line : string) : M (list Effect) unit :=
  modify (λ out, out ++ [Print line]).

(** A library call: it is made, and returns or raises. *)
Definition call (ev : Effect) (r : result unit) : M (list Effect) unit :=
  modify (λ out, out ++ [ev]);; lift r.

Definition nl : string := String (ascii_of_nat 10) EmptyString.

(** ["=" * 60] *)
Definition rule : string :=
  "============================================================".

Definition model_name : string := "Helsinki-NLP/opus-mt-en-fr".

Definition success_line : string := "✅ SUCCESS! Model is ready to use".
Definition error_prefix : string := nl +:+ "❌ ERROR: ".

(** The script, from its first line to its last. *)
Definition script (c : Calls) : M (list Effect) unit :=
  print rule;;
  print "📥 Downloading Translation Model";;
  print rule;;
  print "Model: Helsinki-NLP/opus-mt-en-fr";;
  print "Size: ~300 MB";;
  print ("This will take 2-3 minutes..." +:+ nl);;
  try_except
    (print "Step 1/2: Downloading tokenizer...";;
     call (FromPretrained "MarianTokenizer" model_name)
       (tokenizer_from_pretrained c);;
     print "✓ Tokenizer downloaded";;
     print (nl +:+ "Step 2/2: Downloading model (this is the big one)...");;
     call (FromPretrained "MarianMTModel" model_name)
       (model_from_pretrained c);;
     print "✓ Model downloaded";;
     print (nl +:+ "Saving to local folder...");;
     call (SavePretrained "MarianTokenizer" "./models/opus-mt-en-fr")
       (tokenizer_save_pretrained c);;
     call (SavePretrained "MarianMTModel" "./models/opus-mt-en-fr")
       (model_save_pretrained c);;
     print "✓ Saved to ./models/opus-mt-en-fr";;
     print (nl +:+ rule);;
     print success_line;;
     print rule;;
     print (nl +:+ "Next step: Run the server with:");;
     print "  uvicorn app.main:app --reload";;
     print rule)
    (λ e,
     print (error_prefix +:+ str_exn e);;
     print (nl +:+ "Troubleshooting:");;
     print "1. Check your internet connection";;
     print "2. Make sure you have enough disk space (~1 GB free)";;
     print "3. Try running again").

(** Observations on the output. *)
Fixpoint starts_with (p s : string) : bool :=
  match p with
  | EmptyString => true
  | String a p' =>
      match s with
      | String b s' => Ascii.eqb a b && starts_with p' s'
      | EmptyString => false
      end
  end.

Definition printed (p : string → bool) (out : list Effect) : bool :=
  existsb (λ ev, match ev with Print line => p line | _ => false end) out.

Definition saved (c : string) (out : list Effect) : bool :=
  existsb (λ ev, match ev with
                 | SavePretrained cls _ => String.eqb cls c
                 | _ => false
                 end) out.

Definition downloads_ok (c : Calls) : bool :=
  is_ok (tokenizer_from_pretrained c) && is_ok (model_from_pretrained c).

Definition all_ok (c : Calls) : bool :=
  downloads_ok c && is_ok (tokenizer_save_pretrained c)
  && is_ok (model_save_pretrained c).

End Download.

(** X16. The download script never ends with an exception, whatever the
    downloads and the saves do: a failure is printed and the script
    ends normally.  It prints its success line exactly when all four
    calls succeed and an error line exactly when one fails.  Nothing is
    saved unless both downloads succeeded, and the model is saved only
    after the tokenizer was: when saving the model fails, the tokenizer
    files have been written all the same. *)
Theorem download_script_outcome (c : Download.Calls) :
  let out := (Download.script c []).2 in
  (Download.script c []).1 = Ok tt ∧
  Download.printed (String.eqb Download.success_line) out = Download.all_ok c ∧
  Download.printed (Download.starts_with Download.error_prefix) out =
    negb (Download.all_ok c) ∧
  Download.saved "MarianTokenizer" out = Download.downloads_ok c ∧
  Download.saved "MarianMTModel" out =
    Download.downloads_ok c && is_ok (Download.tokenizer_save_pretrained c).
Proof.
  destruct c as [[[]|e1] [[]|e2] [[]|e3] [[]|e4]]; by vm_compute.
Qed.
